(** * Wallet risk scorer: feature extraction and batch-relative scoring

    A shallow embedding of [scorer.py]: [calculate_features] (the feature
    extractor) and [calculate_risk_scores] (the batch scorer), together with
    the few pandas operations they go through.

    Numbers.  The program computes in binary64 floating point.  Finite
    numbers are modelled as exact rationals ([Q]); rounding and overflow are
    not modelled.  What the program can observe beyond finite numbers is kept:
    the minimum of an empty Series is NaN, [0 / 0] is NaN, [x / 0] is an
    infinity, comparisons with NaN are false, and the cast of a non-finite
    value to an integer raises.

    Time and text.  [datetime.now()] is a parameter of the extractor.
    Addresses are ASCII strings; the Wei amounts and the timestamps of the
    ledger source are taken as the integers they spell. *)

From Stdlib Require Import ZArith QArith Qminmax Qround Lqa Lia.
From Stdlib Require Import List String Ascii Bool Permutation Floats.
Import ListNotations.

Open Scope Q_scope.

(** ** Exceptions and results *)

Inductive exn : Type :=
| KeyError (key : string)
| IndexError
| IntCastingNaNError.

Inductive result (A : Type) : Type :=
| Ok (a : A)
| Raise (e : exn).

Arguments Ok {A} a.
Arguments Raise {A} e.

Definition bind {A B : Type} (m : result A) (k : A -> result B) : result B :=
  match m with
  | Ok a => k a
  | Raise e => Raise e
  end.

Notation "x <- m ;; k" := (bind m (fun x => k))
  (at level 61, m at next level, right associativity).

(** ** Float values that need not be finite *)

Inductive fval : Type :=
| Fin (q : Q)
| Inf (negative : bool)
| NaN.

Definition Qlt_bool (x y : Q) : bool := negb (Qle_bool y x).

Definition fsub (a b : fval) : fval :=
  match a, b with
  | Fin x, Fin y => Fin (x - y)
  | NaN, _ | _, NaN => NaN
  | Inf s, Fin _ => Inf s
  | Fin _, Inf s => Inf (negb s)
  | Inf s, Inf t => if Bool.eqb s t then NaN else Inf s
  end.

Definition fmul (a b : fval) : fval :=
  match a, b with
  | Fin x, Fin y => Fin (x * y)
  | NaN, _ | _, NaN => NaN
  | Inf s, Fin y | Fin y, Inf s =>
      if Qeq_bool y 0 then NaN else Inf (xorb s (Qlt_bool y 0))
  | Inf s, Inf t => Inf (xorb s t)
  end.

Definition fdiv (a b : fval) : fval :=
  match a, b with
  | Fin x, Fin y =>
      if Qeq_bool y 0
      then if Qeq_bool x 0 then NaN else Inf (Qlt_bool x 0)
      else Fin (x / y)
  | NaN, _ | _, NaN => NaN
  | Fin _, Inf _ => Fin 0
  | Inf s, Fin y => Inf (xorb s (Qlt_bool y 0))
  | Inf _, Inf _ => NaN
  end.

(** ** Series of finite numbers *)

(** [Series.min()] and [Series.max()]: NaN on the empty Series. *)
Fixpoint series_min (s : list Q) : fval :=
  match s with
  | [] => NaN
  | x :: t =>
      match series_min t with
      | Fin m => Fin (Qmin x m)
      | _ => Fin x
      end
  end.

Fixpoint series_max (s : list Q) : fval :=
  match s with
  | [] => NaN
  | x :: t =>
      match series_max t with
      | Fin m => Fin (Qmax x m)
      | _ => Fin x
      end
  end.

(** Truncation toward zero, as the float-to-int cast does. *)
Definition Qtruncate (q : Q) : Z := Z.quot (Qnum q) (Z.pos (Qden q)).

(** [Series.astype(int)] on a float Series: pandas refuses any value that is
    not finite ("Cannot convert non-finite values (NA or inf) to integer"). *)
Fixpoint astype_int (s : list fval) : result (list Z) :=
  match s with
  | [] => Ok []
  | Fin q :: t => zs <- astype_int t ;; Ok (Qtruncate q :: zs)
  | _ :: _ => Raise IntCastingNaNError
  end.

(** ** The batch scorer *)

(** The weighted feature columns of [features_df]. *)
Inductive feature : Type :=
| WalletAgeDays
| TxCount
| AvgEthSent
| UniqueRecipients
| MockLiquidations
| MockHighLtvBorrows.

(** One row of [features_df]: the index label (the wallet address) and the six
    numeric cells.  The frame handed to the scorer has been through
    [fillna(0)], so every cell is a finite number. *)
Record Row : Type := mkRow {
  index : string;
  c_wallet_age_days : Q;
  c_tx_count : Q;
  c_avg_eth_sent : Q;
  c_unique_recipients : Q;
  c_mock_liquidations : Q;
  c_mock_high_ltv_borrows : Q
}.

Definition DataFrame : Type := list Row.

Definition cell (f : feature) (r : Row) : Q :=
  match f with
  | WalletAgeDays => c_wallet_age_days r
  | TxCount => c_tx_count r
  | AvgEthSent => c_avg_eth_sent r
  | UniqueRecipients => c_unique_recipients r
  | MockLiquidations => c_mock_liquidations r
  | MockHighLtvBorrows => c_mock_high_ltv_borrows r
  end.

Definition set_cell (f : feature) (v : Q) (r : Row) : Row :=
  match f with
  | WalletAgeDays =>
      mkRow (index r) v (c_tx_count r) (c_avg_eth_sent r)
        (c_unique_recipients r) (c_mock_liquidations r)
        (c_mock_high_ltv_borrows r)
  | TxCount =>
      mkRow (index r) (c_wallet_age_days r) v (c_avg_eth_sent r)
        (c_unique_recipients r) (c_mock_liquidations r)
        (c_mock_high_ltv_borrows r)
  | AvgEthSent =>
      mkRow (index r) (c_wallet_age_days r) (c_tx_count r) v
        (c_unique_recipients r) (c_mock_liquidations r)
        (c_mock_high_ltv_borrows r)
  | UniqueRecipients =>
      mkRow (index r) (c_wallet_age_days r) (c_tx_count r) (c_avg_eth_sent r)
        v (c_mock_liquidations r) (c_mock_high_ltv_borrows r)
  | MockLiquidations =>
      mkRow (index r) (c_wallet_age_days r) (c_tx_count r) (c_avg_eth_sent r)
        (c_unique_recipients r) v (c_mock_high_ltv_borrows r)
  | MockHighLtvBorrows =>
      mkRow (index r) (c_wallet_age_days r) (c_tx_count r) (c_avg_eth_sent r)
        (c_unique_recipients r) (c_mock_liquidations r) v
  end.

(** [df[f]]: a column as a Series. *)
Definition column (f : feature) (df : DataFrame) : list Q := map (cell f) df.

(** [df[f] = s]: both carry the same index, so the assignment is by position. *)
Fixpoint assign (f : feature) (s : list Q) (df : DataFrame) : DataFrame :=
  match df, s with
  | r :: df', v :: s' => set_cell f v r :: assign f s' df'
  | _, _ => df
  end.

(** [df[f] = v] with a scalar [v]. *)
Definition assign_scalar (f : feature) (v : Q) (df : DataFrame) : DataFrame :=
  map (set_cell f v) df.

Definition weights : list (feature * Q) :=
  [ (WalletAgeDays, -0.1);
    (TxCount, 0.15);
    (AvgEthSent, 0.2);
    (UniqueRecipients, 0.25);
    (MockLiquidations, 0.5);
    (MockHighLtvBorrows, 0.4) ].

Definition keys : list feature := map fst weights.

(** One turn of the normalisation loop (lines 106-112).  The guard
    [(max_val - min_val) > 0] is false when a bound is NaN (the frame has no
    row); when it holds, both bounds are finite and so is every quotient. *)
Definition normalize_feature (features_df normalized_df : DataFrame)
    (f : feature) : DataFrame :=
  match series_min (column f features_df),
        series_max (column f features_df) with
  | Fin min_val, Fin max_val =>
      if Qlt_bool 0 (max_val - min_val) then
        assign f
          (map (fun x => (x - min_val) / (max_val - min_val))
               (column f features_df))
          normalized_df
      else assign_scalar f 0 normalized_df
  | _, _ => assign_scalar f 0 normalized_df
  end.

Definition normalize (features_df : DataFrame) : DataFrame :=
  fold_left (normalize_feature features_df) keys features_df.

(** [(normalized_df[keys] * pd.Series(weights)).sum(axis=1)] for one row. *)
Definition weighted_sum (r : Row) : Q :=
  fold_left Qplus (map (fun fw => cell (fst fw) r * snd fw) weights) 0.

Definition raw_scores (features_df : DataFrame) : list Q :=
  map weighted_sum (normalize features_df).

(** [1000 * (raw_score - min_score) / (max_score - min_score)]. *)
Definition rescale (min_score max_score : fval) (raw : Q) : fval :=
  fdiv (fmul (Fin 1000) (fsub (Fin raw) min_score))
       (fsub max_score min_score).

Definition final_scores (features_df : DataFrame) : list fval :=
  let raw_score := raw_scores features_df in
  let min_score := series_min raw_score in
  let max_score := series_max raw_score in
  map (rescale min_score max_score) raw_score.

(** The result is a Series of integers under the index of [features_df]. *)
Definition calculate_risk_scores (features_df : DataFrame)
    : result (list (string * Z)) :=
  scores <- astype_int (final_scores features_df) ;;
  Ok (combine (map index features_df) scores).

(** ** The feature extractor *)

(** A transaction as the ledger source returns it: a dict whose keys may be
    missing.  [value] is in Wei, [timeStamp] in seconds since the epoch. *)
Record RawTransaction : Type := mkTx {
  tx_from : option string;
  tx_to : option string;
  value : option Z;
  timeStamp : option Z
}.

(** The dict [calculate_features] returns.  [avg_eth_sent] is a float: the
    mean of a selection that holds no value is NaN. *)
Record FeatureRecord : Type := mkFeatures {
  wallet_address : string;
  wallet_age_days : Z;
  tx_count : Z;
  avg_eth_sent : fval;
  unique_recipients : Z;
  mock_liquidations : Z;
  mock_high_ltv_borrows : Z
}.

(** [str.lower()], on ASCII letters. *)
Definition lower_ascii (c : ascii) : ascii :=
  let n := nat_of_ascii c in
  if ((65 <=? n) && (n <=? 90))%nat then ascii_of_nat (n + 32) else c.

Fixpoint lower (s : string) : string :=
  match s with
  | EmptyString => EmptyString
  | String c t => String (lower_ascii c) (lower t)
  end.

(** [s[-k]] for [k >= 1]. *)
Definition char_from_end (s : string) (k : nat) : result ascii :=
  match nth_error (rev (list_ascii_of_string s)) (k - 1) with
  | Some c => Ok c
  | None => Raise IndexError
  end.

(** [c in chars] for a one-character string [c]. *)
Definition char_in (c : ascii) (chars : string) : bool :=
  existsb (Ascii.eqb c) (list_ascii_of_string chars).

(** [wallet_address[-k] in chars] (lines 76-77). *)
Definition last_char_in (wallet_address : string) (k : nat) (chars : string)
    : result bool :=
  c <- char_from_end wallet_address k ;; Ok (char_in c chars).

(** The values a column holds, missing entries dropped. *)
Fixpoint present {A : Type} (col : list (option A)) : list A :=
  match col with
  | [] => []
  | Some a :: t => a :: present t
  | None :: t => present t
  end.

(** [df[key]] on [pd.DataFrame(transactions)]: the frame has the column when
    some transaction has the key; a transaction without it holds NaN there. *)
Definition getitem {A : Type} (key : string) (get : RawTransaction -> option A)
    (df : list RawTransaction) : result (list (option A)) :=
  match present (map get df) with
  | [] => Raise (KeyError key)
  | _ :: _ => Ok (map get df)
  end.

(** The minimum of a list of timestamps that is not empty, given by its head
    and its tail. *)
Fixpoint Zmin_list (first : Z) (rest : list Z) : Z :=
  match rest with
  | [] => first
  | t :: rest' => Z.min first (Zmin_list t rest')
  end.

(** [Series.mean()]: NaN when no value is there. *)
Definition series_mean (s : list (option Q)) : fval :=
  match present s with
  | [] => NaN
  | v :: vs =>
      Fin (fold_left Qplus (v :: vs) 0
           / inject_Z (Z.of_nat (List.length (v :: vs))))
  end.

(** [Series.nunique()]: distinct values, missing ones dropped. *)
Definition nunique (s : list (option string)) : Z :=
  Z.of_nat (List.length (nodup string_dec (present s))).

Definition wei_to_ether (v : Z) : Q := inject_Z v / inject_Z (10 ^ 18).

(** The rows of [df] whose sender is [wallet_address], letter case aside; a
    missing sender compares unequal. *)
Definition is_sent (wallet_address : string) (tx : RawTransaction) : bool :=
  match tx_from tx with
  | Some s => String.eqb (lower s) (lower wallet_address)
  | None => false
  end.

Definition microseconds_per_day : Z := 86400 * 1000000.

(** [now] is what [datetime.now()] returns, in microseconds since the epoch.
    Line 55 converts the whole [value] column and line 56 the whole
    [timeStamp] column, so either key missing from every transaction raises
    before anything is computed; [timedelta.days] rounds down. *)
Definition calculate_features (transactions : list RawTransaction)
    (wallet_address : string) (now : Z) : result FeatureRecord :=
  match transactions with
  | [] => Ok (mkFeatures wallet_address 0 0 (Fin 0) 0 0 0)
  | _ :: _ =>
      let df := transactions in
      _ <- getitem "value" value df ;;
      stamps <- getitem "timeStamp" timeStamp df ;;
      first_tx_date <-
        match present stamps with
        | [] => Raise (KeyError "timeStamp")
        | t :: ts => Ok (Zmin_list t ts)
        end ;;
      let wallet_age_days :=
        ((now - first_tx_date * 1000000) / microseconds_per_day)%Z in
      let tx_count := Z.of_nat (List.length df) in
      _ <- getitem "from" tx_from df ;;
      let sent_tx := filter (is_sent wallet_address) df in
      let avg_eth_sent :=
        match sent_tx with
        | [] => Fin 0
        | _ :: _ =>
            series_mean
              (map (fun tx => option_map wei_to_ether (value tx)) sent_tx)
        end in
      _ <- getitem "to" tx_to df ;;
      let unique_recipients := nunique (map tx_to sent_tx) in
      mock_liquidations <- last_char_in wallet_address 1 "012" ;;
      mock_high_ltv_borrows <- last_char_in wallet_address 2 "abc" ;;
      Ok (mkFeatures wallet_address wallet_age_days tx_count avg_eth_sent
            unique_recipients
            (Z.b2z mock_liquidations) (Z.b2z mock_high_ltv_borrows))
  end.

(** Lines 147-148: the features of every wallet as one frame, NaN replaced
    by 0. *)
Definition fillna0 (v : fval) : Q :=
  match v with
  | Fin q => q
  | _ => 0
  end.

Definition to_row (r : FeatureRecord) : Row :=
  mkRow (wallet_address r)
    (inject_Z (wallet_age_days r)) (inject_Z (tx_count r))
    (fillna0 (avg_eth_sent r)) (inject_Z (unique_recipients r))
    (inject_Z (mock_liquidations r)) (inject_Z (mock_high_ltv_borrows r)).

Definition features_frame (all_features : list FeatureRecord) : DataFrame :=
  map to_row all_features.

(** ** Frames that may lack the feature columns

    A [DataFrame] above always carries the six feature columns.  The frame
    pandas builds from records has the columns of its records:
    [pd.DataFrame([])], built from no record, has no row and no column, and
    [features_df[feature]] raises [KeyError] on it. *)
Inductive Frame : Type :=
| NoColumns
| Columns (rows : DataFrame).

(** The column label of a feature, as the keys of [weights] spell it. *)
Definition label (f : feature) : string :=
  match f with
  | WalletAgeDays => "wallet_age_days"
  | TxCount => "tx_count"
  | AvgEthSent => "avg_eth_sent"
  | UniqueRecipients => "unique_recipients"
  | MockLiquidations => "mock_liquidations"
  | MockHighLtvBorrows => "mock_high_ltv_borrows"
  end.

(** [pd.DataFrame(records)]; when there are records, under the index and
    with the NaN filling of lines 147-148. *)
Definition frame_of_records (records : list FeatureRecord) : Frame :=
  match records with
  | [] => NoColumns
  | _ :: _ => Columns (features_frame records)
  end.

(** [calculate_risk_scores] on such a frame: without columns, the first turn
    of the loop of line 106 fails on its lookup at line 107. *)
Definition calculate_risk_scores_frame (features_df : Frame)
    : result (list (string * Z)) :=
  match features_df with
  | Columns rows => calculate_risk_scores rows
  | NoColumns =>
      match keys with
      | [] => Ok []
      | f :: _ => Raise (KeyError (label f))
      end
  end.

(** The empty batch as the requirement words it: the scorer, given the frame
    of zero records, returns the empty result. *)
Definition empty_batch_returns : Prop :=
  calculate_risk_scores_frame (frame_of_records []) = Ok [].

(** ** The main block

    One turn of the loop of lines 139-144: the address read from the wallet
    list, what [get_transactions] returned for it (the empty list on any
    failure of the request) and the instant of its extraction. *)
Record Wallet : Type := mkWallet {
  address : string;
  fetched : list RawTransaction;
  extracted_at : Z
}.

(** The loop: an exception of an extraction is not caught. *)
Fixpoint all_features (wallets : list Wallet) : result (list FeatureRecord) :=
  match wallets with
  | [] => Ok []
  | w :: ws =>
      features <- calculate_features (fetched w) (address w)
                    (extracted_at w) ;;
      rest <- all_features ws ;;
      Ok (features :: rest)
  end.

(** [pd.DataFrame(all_features).set_index("wallet_address")] followed by
    [fillna(0)]: a frame made of no dict has no column to take as index. *)
Definition set_index (features : list FeatureRecord) : result DataFrame :=
  match features with
  | [] => Raise (KeyError "wallet_address")
  | _ :: _ => Ok (features_frame features)
  end.

(** Lines 137-156: the rows of [output_df], a wallet id and its score. *)
Definition main (wallets : list Wallet) : result (list (string * Z)) :=
  features <- all_features wallets ;;
  features_df <- set_index features ;;
  calculate_risk_scores features_df.

(** ** The scorer, row by row

    What the normalisation loop leaves in column [f] of a row whose cell was
    [x], and the row it makes of a row of [features_df]. *)

Definition norm_value (features_df : DataFrame) (f : feature) (x : Q) : Q :=
  match series_min (column f features_df),
        series_max (column f features_df) with
  | Fin min_val, Fin max_val =>
      if Qlt_bool 0 (max_val - min_val)
      then (x - min_val) / (max_val - min_val)
      else 0
  | _, _ => 0
  end.

Definition normalize_row (features_df : DataFrame) (r : Row) : Row :=
  fold_left (fun acc f => set_cell f (norm_value features_df f (cell f r)) acc)
            keys r.

Definition raw_score_of (features_df : DataFrame) (r : Row) : Q :=
  weighted_sum (normalize_row features_df r).

(** Two runs of the scorer agree when both raise the same exception, or both
    return and the index-to-score pairs of one are those of the other. *)
Definition same_mapping (m m' : result (list (string * Z))) : Prop :=
  match m, m' with
  | Ok s, Ok s' => Permutation s s'
  | Raise e, Raise e' => e = e'
  | _, _ => False
  end.

(** A transaction with its four fields. *)
Definition well_formed (tx : RawTransaction) : bool :=
  match tx_from tx, tx_to tx, value tx, timeStamp tx with
  | Some _, Some _, Some _, Some _ => true
  | _, _, _, _ => false
  end.

(** Some transaction of the list has the key. *)
Definition has_key {A : Type} (get : RawTransaction -> option A)
    (transactions : list RawTransaction) : Prop :=
  exists tx, In tx transactions /\ get tx <> None.

(** The extractor as the requirement on malformed transactions words it: the
    result is a record, the one the well-formed transactions alone give. *)
Definition skips_malformed (transactions : list RawTransaction)
    (wallet_address : string) (now : Z) : Prop :=
  exists r,
    calculate_features transactions wallet_address now = Ok r /\
    calculate_features (filter well_formed transactions) wallet_address now
    = Ok r.

(** The record of a wallet without history as the requirement words it: the
    activity features are 0 and the two flags follow the address. *)
Definition flags_from_address (transactions : list RawTransaction)
    (wallet_address : string) (now : Z) : Prop :=
  exists liq ltv,
    last_char_in wallet_address 1 "012" = Ok liq /\
    last_char_in wallet_address 2 "abc" = Ok ltv /\
    calculate_features transactions wallet_address now
    = Ok (mkFeatures wallet_address 0 0 (Fin 0) 0 (Z.b2z liq) (Z.b2z ltv)).

(** Sample data. *)

Definition rowA : Row := mkRow "A" 0 0 0 0 0 0.
Definition rowB : Row := mkRow "B" 100 50 2 10 1 1.

Definition rowC : Row := mkRow "C" 0 7 1 3 0 1.

Definition one_ether : Z := 10 ^ 18.

Definition tx_sent : RawTransaction :=
  mkTx (Some "0xAB"%string) (Some "0xcd"%string) (Some one_ether)
       (Some 86400%Z).
Definition tx_received : RawTransaction :=
  mkTx (Some "0xcd"%string) (Some "0xab"%string) (Some one_ether)
       (Some 172800%Z).
Definition tx_no_sender : RawTransaction :=
  mkTx None (Some "0xcd"%string) (Some one_ether) (Some 86400%Z).
Definition tx_no_value : RawTransaction :=
  mkTx (Some "0xab"%string) (Some "0xcd"%string) None (Some 86400%Z).

Definition three_days : Z := 3 * microseconds_per_day.

Definition wallet_ab : Wallet :=
  mkWallet "0xab" [tx_sent; tx_received] three_days.
Definition wallet_a0 : Wallet := mkWallet "0xa0" [] three_days.
Definition wallet_short : Wallet := mkWallet "0" [tx_sent] three_days.

(** The pipeline of the main block on two wallets, one with two transactions
    and one without history. *)
Definition two_wallets : result DataFrame :=
  with_history <- calculate_features [tx_sent; tx_received] "0xab" three_days ;;
  without <- calculate_features [] "0xa0" three_days ;;
  Ok (features_frame [with_history; without]).

(** ** The example batch in binary64

    The arithmetic of lines 115-120 replayed on the kernel's binary64 floats
    for the two normalised rows of the example (all cells 0, all cells 1), to
    see what rounding does to the quotients that the rational model takes as
    exact. *)
Module Binary64.

#[local] Set Warnings "-inexact-float".
Local Open Scope float_scope.

Definition weights : list float := [-0.1; 0.15; 0.2; 0.25; 0.5; 0.4].

Definition weighted_sum (cells : list float) : float :=
  fold_left PrimFloat.add
    (map (fun cw => fst cw * snd cw) (combine cells weights)) 0.

Definition rescale (min_score max_score raw : float) : float :=
  1000 * (raw - min_score) / (max_score - min_score).

Definition raw_A : float := weighted_sum [0; 0; 0; 0; 0; 0].
Definition raw_B : float := weighted_sum [1; 1; 1; 1; 1; 1].

Definition final_B : float := 1000.0000000000001.

End Binary64.

(** * Properties *)

(** ** Comparisons and bounds on [Q] *)

Lemma Qlt_bool_iff (x y : Q) : Qlt_bool x y = true <-> x < y.
Proof.
  unfold Qlt_bool. rewrite negb_true_iff.
  split; intro H.
  - apply Qnot_le_lt. intro Hle. apply Qle_bool_iff in Hle. congruence.
  - apply not_true_is_false. intro Hle. apply Qle_bool_iff in Hle.
    apply (Qlt_not_le _ _ H Hle).
Qed.

Lemma Qlt_bool_false_iff (x y : Q) : Qlt_bool x y = false <-> y <= x.
Proof.
  split; intro H.
  - apply Qnot_lt_le. intro Hlt. apply Qlt_bool_iff in Hlt. congruence.
  - apply not_true_is_false. intro Hlt. apply Qlt_bool_iff in Hlt.
    apply (Qlt_not_le _ _ Hlt H).
Qed.

Lemma Qeq_bool_false_iff (x y : Q) : Qeq_bool x y = false <-> ~ x == y.
Proof.
  split; intro H.
  - intro Heq. apply Qeq_bool_iff in Heq. congruence.
  - apply not_true_is_false. intro Heq. apply Qeq_bool_iff in Heq. tauto.
Qed.

Lemma Qtruncate_nonneg (q : Q) : 0 <= q -> Qtruncate q = Qfloor q.
Proof.
  destruct q as [n d]. unfold Qle, Qtruncate, Qfloor. simpl. intro H.
  apply Z.quot_div_nonneg; lia.
Qed.

Lemma Qtruncate_range (q : Q) (bound : Z) :
  0 <= q -> q <= inject_Z bound -> (0 <= Qtruncate q <= bound)%Z.
Proof.
  intros H0 H1. rewrite (Qtruncate_nonneg q H0). split.
  - change 0%Z with (Qfloor 0). apply Qfloor_resp_le, H0.
  - rewrite <- (Qfloor_Z bound). apply Qfloor_resp_le, H1.
Qed.

Lemma Qtruncate_comp (p q : Q) : p == q -> Qtruncate p = Qtruncate q.
Proof.
  intro H.
  destruct (Qlt_le_dec p 0) as [Hneg | Hpos].
  - assert (Hq : q < 0) by (rewrite <- H; exact Hneg).
    assert (Hp' : 0 <= - p) by lra.
    assert (Hq' : 0 <= - q) by lra.
    assert (E : Qtruncate (- p) = Qtruncate (- q)).
    { rewrite !Qtruncate_nonneg by assumption.
      apply Qfloor_comp. rewrite H. reflexivity. }
    destruct p as [a b], q as [c d]. unfold Qtruncate in *. simpl in *.
    rewrite !Z.quot_opp_l in E by lia. lia.
  - assert (Hq : 0 <= q) by (rewrite <- H; exact Hpos).
    rewrite !Qtruncate_nonneg by assumption. apply Qfloor_comp, H.
Qed.

(** ** Minimum and maximum of a Series *)

Lemma series_min_nil_iff (s : list Q) : series_min s = NaN <-> s = [].
Proof.
  destruct s as [| x t]; simpl.
  - tauto.
  - destruct (series_min t); split; intro; discriminate.
Qed.

Lemma series_max_nil_iff (s : list Q) : series_max s = NaN <-> s = [].
Proof.
  destruct s as [| x t]; simpl.
  - tauto.
  - destruct (series_max t); split; intro; discriminate.
Qed.

Lemma series_min_cons (x : Q) (t : list Q) :
  exists m, series_min (x :: t) = Fin m.
Proof. simpl. destruct (series_min t); eauto. Qed.

Lemma series_max_cons (x : Q) (t : list Q) :
  exists m, series_max (x :: t) = Fin m.
Proof. simpl. destruct (series_max t); eauto. Qed.

Lemma series_min_never_inf (s : list Q) (b : bool) : series_min s <> Inf b.
Proof. destruct s; simpl; [| destruct (series_min s)]; discriminate. Qed.

Lemma series_max_never_inf (s : list Q) (b : bool) : series_max s <> Inf b.
Proof. destruct s; simpl; [| destruct (series_max s)]; discriminate. Qed.

Lemma series_min_le (s : list Q) (m x : Q) :
  series_min s = Fin m -> In x s -> m <= x.
Proof.
  revert m. induction s as [| y t IH]; intros m Hm Hin; [contradiction |].
  simpl in Hm. destruct (series_min t) as [m' | |] eqn:Et.
  - injection Hm as <-. destruct Hin as [-> | Hin].
    + apply Q.le_min_l.
    + eapply Qle_trans; [apply Q.le_min_r | apply IH; auto].
  - exfalso. eapply series_min_never_inf; eauto.
  - apply series_min_nil_iff in Et. subst t. injection Hm as <-.
    destruct Hin as [-> | []]. apply Qle_refl.
Qed.

Lemma series_max_ge (s : list Q) (m x : Q) :
  series_max s = Fin m -> In x s -> x <= m.
Proof.
  revert m. induction s as [| y t IH]; intros m Hm Hin; [contradiction |].
  simpl in Hm. destruct (series_max t) as [m' | |] eqn:Et.
  - injection Hm as <-. destruct Hin as [-> | Hin].
    + apply Q.le_max_l.
    + eapply Qle_trans; [apply IH; auto | apply Q.le_max_r].
  - exfalso. eapply series_max_never_inf; eauto.
  - apply series_max_nil_iff in Et. subst t. injection Hm as <-.
    destruct Hin as [-> | []]. apply Qle_refl.
Qed.

(** The bound is attained, up to the equality of rationals. *)
Lemma series_min_attained (s : list Q) (m : Q) :
  series_min s = Fin m -> exists x, In x s /\ x == m.
Proof.
  revert m. induction s as [| y t IH]; intros m Hm; [discriminate |].
  simpl in Hm. destruct (series_min t) as [m' | |] eqn:Et.
  - injection Hm as <-.
    destruct (Q.min_spec y m') as [[_ E] | [_ E]].
    + exists y. split; [left; reflexivity | symmetry; exact E].
    + destruct (IH m' eq_refl) as [x [Hx Ex]].
      exists x. split; [right; exact Hx | rewrite E; exact Ex].
  - exfalso. eapply series_min_never_inf; eauto.
  - injection Hm as <-. exists y. split; [left |]; reflexivity.
Qed.

Lemma series_max_attained (s : list Q) (m : Q) :
  series_max s = Fin m -> exists x, In x s /\ x == m.
Proof.
  revert m. induction s as [| y t IH]; intros m Hm; [discriminate |].
  simpl in Hm. destruct (series_max t) as [m' | |] eqn:Et.
  - injection Hm as <-.
    destruct (Q.max_spec y m') as [[_ E] | [_ E]].
    + destruct (IH m' eq_refl) as [x [Hx Ex]].
      exists x. split; [right; exact Hx | rewrite E; exact Ex].
    + exists y. split; [left; reflexivity | symmetry; exact E].
  - exfalso. eapply series_max_never_inf; eauto.
  - injection Hm as <-. exists y. split; [left |]; reflexivity.
Qed.

Lemma series_min_le_max (s : list Q) (mn mx : Q) :
  series_min s = Fin mn -> series_max s = Fin mx -> mn <= mx.
Proof.
  intros Hmn Hmx. destruct (series_min_attained s mn Hmn) as [x [Hx Ex]].
  rewrite <- Ex. eapply series_max_ge; eauto.
Qed.

(** ** The normalisation loop, row by row *)

Lemma assign_map (f : feature) (h : Q -> Q) (g : Row -> Row) (df : DataFrame) :
  assign f (map h (column f df)) (map g df)
  = map (fun r => set_cell f (h (cell f r)) (g r)) df.
Proof.
  unfold column. induction df as [| r df IH]; simpl; [reflexivity |].
  f_equal. exact IH.
Qed.

Lemma normalize_feature_map (df : DataFrame) (g : Row -> Row) (f : feature) :
  normalize_feature df (map g df) f
  = map (fun r => set_cell f (norm_value df f (cell f r)) (g r)) df.
Proof.
  unfold normalize_feature, norm_value, assign_scalar.
  destruct (series_min (column f df)) as [mn | |];
    try (rewrite map_map; reflexivity).
  destruct (series_max (column f df)) as [mx | |];
    try (rewrite map_map; reflexivity).
  destruct (Qlt_bool 0 (mx - mn)).
  - apply assign_map.
  - rewrite map_map. reflexivity.
Qed.

Lemma normalize_loop_map (df : DataFrame) (ks : list feature) :
  forall g : Row -> Row,
    fold_left (normalize_feature df) ks (map g df)
    = map (fun r =>
             fold_left
               (fun acc f => set_cell f (norm_value df f (cell f r)) acc)
               ks (g r))
          df.
Proof.
  induction ks as [| k ks IH]; intro g; simpl; [reflexivity |].
  rewrite normalize_feature_map. rewrite (IH _). reflexivity.
Qed.

Lemma normalize_rows (df : DataFrame) :
  normalize df = map (normalize_row df) df.
Proof.
  unfold normalize, normalize_row.
  rewrite <- (map_id df) at 2. rewrite normalize_loop_map.
  reflexivity.
Qed.

Lemma cell_normalize_row (df : DataFrame) (f : feature) (r : Row) :
  cell f (normalize_row df r) = norm_value df f (cell f r).
Proof. destruct f; reflexivity. Qed.

Lemma index_normalize_row (df : DataFrame) (r : Row) :
  index (normalize_row df r) = index r.
Proof. reflexivity. Qed.

Lemma raw_scores_rows (df : DataFrame) :
  raw_scores df = map (raw_score_of df) df.
Proof.
  unfold raw_scores, raw_score_of. rewrite normalize_rows, map_map.
  reflexivity.
Qed.

(** ** The final rescaling *)

Lemma astype_int_Ok (s : list fval) (zs : list Z) :
  astype_int s = Ok zs ->
  Forall2 (fun v z => exists q, v = Fin q /\ z = Qtruncate q) s zs.
Proof.
  revert zs. induction s as [| v s IH]; intros zs H; simpl in H.
  - injection H as <-. constructor.
  - destruct v as [q | b |]; try discriminate.
    destruct (astype_int s) as [zs' | e]; simpl in H; [| discriminate].
    injection H as <-. constructor; [exists q; split; reflexivity |].
    apply IH. reflexivity.
Qed.

Lemma astype_int_all_finite (qs : list Q) :
  astype_int (map Fin qs) = Ok (map Qtruncate qs).
Proof.
  induction qs as [| q qs IH]; simpl; [reflexivity |].
  rewrite IH. reflexivity.
Qed.

Lemma rescale_finite (a b x : Q) :
  rescale (Fin a) (Fin b) x
  = if Qeq_bool (b - a) 0
    then if Qeq_bool (1000 * (x - a)) 0 then NaN
         else Inf (Qlt_bool (1000 * (x - a)) 0)
    else Fin (1000 * (x - a) / (b - a)).
Proof. reflexivity. Qed.

Lemma rescale_bounds (a b x : Q) :
  a <= x -> x <= b -> ~ b - a == 0 ->
  0 <= 1000 * (x - a) / (b - a) <= 1000.
Proof.
  intros Hax Hxb Hne.
  assert (Hpos : 0 < b - a).
  { destruct (Qlt_le_dec 0 (b - a)) as [H | H]; [exact H |].
    exfalso. apply Hne. lra. }
  split.
  - apply Qle_shift_div_l; [exact Hpos | lra].
  - apply Qle_shift_div_r; [exact Hpos | lra].
Qed.

Lemma rescale_in_range (raws : list Q) (x q : Q) :
  In x raws ->
  rescale (series_min raws) (series_max raws) x = Fin q ->
  0 <= q <= 1000.
Proof.
  intros Hin Hq.
  destruct raws as [| y t]; [contradiction |].
  destruct (series_min_cons y t) as [a Ha].
  destruct (series_max_cons y t) as [b Hb].
  rewrite Ha, Hb, rescale_finite in Hq.
  destruct (Qeq_bool (b - a) 0) eqn:E.
  - destruct (Qeq_bool (1000 * (x - a)) 0); discriminate.
  - injection Hq as <-.
    apply rescale_bounds.
    + eapply series_min_le; eauto.
    + eapply series_max_ge; eauto.
    + apply Qeq_bool_false_iff, E.
Qed.

Lemma Forall_combine_snd {A B : Type} (P : B -> Prop) (l : list A)
    (l' : list B) :
  Forall P l' -> Forall (fun p => P (snd p)) (combine l l').
Proof.
  intro H. revert l. induction H as [| b l' Hb _ IH]; intros [| a l]; simpl;
    constructor; auto.
Qed.

Lemma astype_int_Forall (P : Z -> Prop) (s : list fval) (zs : list Z) :
  astype_int s = Ok zs ->
  (forall q, In (Fin q) s -> P (Qtruncate q)) ->
  Forall P zs.
Proof.
  intros H HP. apply astype_int_Ok in H.
  induction H as [| v z s zs [q [-> ->]] _ IH]; constructor.
  - apply HP. left. reflexivity.
  - apply IH. intros q' Hq'. apply HP. right. exact Hq'.
Qed.

(** C1.  Every score the batch scorer returns is an integer between 0 and
    1000, both included. *)
Theorem calculate_risk_scores_range (features_df : DataFrame)
    (scores : list (string * Z)) :
  calculate_risk_scores features_df = Ok scores ->
  Forall (fun p => (0 <= snd p <= 1000)%Z) scores.
Proof.
  unfold calculate_risk_scores. intro H.
  destruct (astype_int (final_scores features_df)) as [zs | e] eqn:E;
    simpl in H; [| discriminate].
  injection H as <-.
  apply (Forall_combine_snd (fun z => (0 <= z <= 1000)%Z)).
  apply (astype_int_Forall _ _ _ E).
  intros q Hq. unfold final_scores in Hq.
  apply in_map_iff in Hq. destruct Hq as [x [Hx Hin]].
  apply (Qtruncate_range q 1000); eapply rescale_in_range; eauto.
Qed.

Lemma calculate_risk_scores_range_witness :
  calculate_risk_scores [rowA; rowB]
  = Ok [("A"%string, 0%Z); ("B"%string, 1000%Z)]
  /\ Forall (fun p => (0 <= snd p <= 1000)%Z)
            [("A"%string, 0%Z); ("B"%string, 1000%Z)].
Proof.
  split; [reflexivity |].
  apply (calculate_risk_scores_range [rowA; rowB]). reflexivity.
Defined.

(** When the raw scores differ, the scorer returns: one truncated quotient
    per wallet. *)
Lemma calculate_risk_scores_returns (features_df : DataFrame) (a b : Q) :
  series_min (raw_scores features_df) = Fin a ->
  series_max (raw_scores features_df) = Fin b ->
  ~ a == b ->
  calculate_risk_scores features_df
  = Ok (combine (map index features_df)
          (map (fun x => Qtruncate (1000 * (x - a) / (b - a)))
               (raw_scores features_df))).
Proof.
  intros Ha Hb Hab. unfold calculate_risk_scores, final_scores.
  rewrite Ha, Hb.
  assert (E : Qeq_bool (b - a) 0 = false).
  { apply Qeq_bool_false_iff. intro H. apply Hab. lra. }
  rewrite (map_ext _ (fun x => Fin (1000 * (x - a) / (b - a)))).
  2:{ intro x. rewrite rescale_finite, E. reflexivity. }
  rewrite <- (map_map (fun x => 1000 * (x - a) / (b - a)) Fin).
  rewrite astype_int_all_finite, map_map. reflexivity.
Qed.

(** When they are all equal, the bounds coincide, the first quotient is
    zero by zero, and the integer cast raises. *)
Lemma astype_int_rescale_degenerate (y : Q) (t : list Q) :
  (forall x x', In x (y :: t) -> In x' (y :: t) -> x == x') ->
  astype_int
    (map (rescale (series_min (y :: t)) (series_max (y :: t))) (y :: t))
  = Raise IntCastingNaNError.
Proof.
  intro Hall.
  destruct (series_min_cons y t) as [a Ha].
  destruct (series_max_cons y t) as [b Hb].
  rewrite Ha, Hb.
  destruct (series_min_attained _ _ Ha) as [xa [Hxa Ea]].
  destruct (series_max_attained _ _ Hb) as [xb [Hxb Eb]].
  assert (Eab : a == b) by (rewrite <- Ea, <- Eb; apply Hall; assumption).
  assert (Eya : y == a)
    by (rewrite <- Ea; apply Hall; [left; reflexivity | assumption]).
  cbn [map]. rewrite rescale_finite.
  replace (Qeq_bool (b - a) 0) with true
    by (symmetry; apply Qeq_bool_iff; lra).
  replace (Qeq_bool (1000 * (y - a)) 0) with true
    by (symmetry; apply Qeq_bool_iff; lra).
  reflexivity.
Qed.

Lemma raw_scores_nil (features_df : DataFrame) :
  raw_scores features_df = [] -> features_df = [].
Proof.
  rewrite raw_scores_rows. destruct features_df; [reflexivity | discriminate].
Qed.

(** C2.  On a batch that is not empty and whose raw scores are all equal,
    the scorer raises instead of returning the constant 0 for every wallet. *)
Theorem calculate_risk_scores_degenerate (features_df : DataFrame) :
  features_df <> [] ->
  (forall x y, In x (raw_scores features_df) ->
               In y (raw_scores features_df) -> x == y) ->
  calculate_risk_scores features_df = Raise IntCastingNaNError.
Proof.
  intros Hne Hall. unfold calculate_risk_scores, final_scores.
  destruct (raw_scores features_df) as [| y t] eqn:Er.
  - apply raw_scores_nil in Er. contradiction.
  - rewrite (astype_int_rescale_degenerate y t Hall). reflexivity.
Qed.

Lemma calculate_risk_scores_degenerate_witness :
  calculate_risk_scores [rowA; rowA] = Raise IntCastingNaNError.
Proof.
  apply (calculate_risk_scores_degenerate [rowA; rowA]).
  - discriminate.
  - intros x y Hx Hy. simpl in Hx, Hy.
    destruct Hx as [<- | [<- | []]]; destruct Hy as [<- | [<- | []]];
      reflexivity.
Defined.

(** A batch of one wallet is such a batch, whatever the wallet. *)
Lemma calculate_risk_scores_single (r : Row) :
  calculate_risk_scores [r] = Raise IntCastingNaNError.
Proof.
  unfold calculate_risk_scores, final_scores.
  rewrite raw_scores_rows.
  change (map (raw_score_of [r]) [r]) with [raw_score_of [r] r].
  rewrite astype_int_rescale_degenerate; [reflexivity |].
  intros x y [<- | []] [<- | []]. reflexivity.
Qed.

(** On no row, with the six columns there, the bounds are NaN, no guard
    holds, and the cast has nothing to refuse. *)
Lemma calculate_risk_scores_empty : calculate_risk_scores [] = Ok [].
Proof. reflexivity. Qed.

(** C4 (as amended).  An empty batch that carries the six feature columns (a
    frame of no row) gives the empty result, without any exception. *)
Theorem calculate_risk_scores_frame_empty :
  calculate_risk_scores_frame (Columns []) = Ok [].
Proof. reflexivity. Qed.

(** C4 (as stated) fails: the frame of zero records has no column, and the
    first lookup of the normalisation loop raises. *)
Lemma empty_batch_fails : ~ empty_batch_returns.
Proof. unfold empty_batch_returns. simpl. discriminate. Qed.

Lemma calculate_risk_scores_frame_no_columns :
  calculate_risk_scores_frame (frame_of_records [])
  = Raise (KeyError "wallet_age_days").
Proof. reflexivity. Qed.

(** With records, the frame has its columns and the scorer runs on its
    rows. *)
Lemma calculate_risk_scores_frame_records (r : FeatureRecord)
    (rs : list FeatureRecord) :
  calculate_risk_scores_frame (frame_of_records (r :: rs))
  = calculate_risk_scores (features_frame (r :: rs)).
Proof. reflexivity. Qed.

(** C5.  A weighted column whose minimum over the batch equals its maximum is
    0 on every row of the normalised frame. *)
Theorem normalize_constant_column (features_df : DataFrame) (f : feature)
    (min_val max_val : Q) :
  series_min (column f features_df) = Fin min_val ->
  series_max (column f features_df) = Fin max_val ->
  min_val == max_val ->
  column f (normalize features_df) = map (fun _ => 0) features_df.
Proof.
  intros Hmin Hmax Heq. unfold column.
  rewrite normalize_rows, map_map. apply map_ext. intro r.
  rewrite cell_normalize_row. unfold norm_value. rewrite Hmin, Hmax.
  replace (Qlt_bool 0 (max_val - min_val)) with false; [reflexivity |].
  symmetry. apply Qlt_bool_false_iff. lra.
Qed.

Lemma normalize_constant_column_witness :
  column WalletAgeDays (normalize [rowA; rowC]) = [0; 0].
Proof.
  apply (normalize_constant_column [rowA; rowC] WalletAgeDays 0 0);
    reflexivity.
Defined.

(** C7.  The two wallets of the example score 0 and 1000. *)
Theorem calculate_risk_scores_example :
  calculate_risk_scores [rowA; rowB]
  = Ok [("A"%string, 0%Z); ("B"%string, 1000%Z)].
Proof. vm_compute. reflexivity. Qed.

Lemma calculate_risk_scores_example_swapped :
  calculate_risk_scores [rowB; rowA]
  = Ok [("B"%string, 1000%Z); ("A"%string, 0%Z)].
Proof. vm_compute. reflexivity. Qed.

(** ** Order of the batch *)

(** Two Series that hold the same numbers, up to the equality of rationals,
    have the same bounds. *)
Lemma series_min_same (s s' : list Q) (a a' : Q) :
  (forall x, In x s -> exists y, In y s' /\ x == y) ->
  (forall y, In y s' -> exists x, In x s /\ x == y) ->
  series_min s = Fin a -> series_min s' = Fin a' -> a == a'.
Proof.
  intros H H' Ha Ha'.
  destruct (series_min_attained _ _ Ha) as [x [Hx Ex]].
  destruct (series_min_attained _ _ Ha') as [x' [Hx' Ex']].
  destruct (H x Hx) as [y [Hy Exy]].
  destruct (H' x' Hx') as [y' [Hy' Exy']].
  pose proof (series_min_le _ _ _ Ha' Hy).
  pose proof (series_min_le _ _ _ Ha Hy').
  apply Qle_antisym; lra.
Qed.

Lemma series_max_same (s s' : list Q) (b b' : Q) :
  (forall x, In x s -> exists y, In y s' /\ x == y) ->
  (forall y, In y s' -> exists x, In x s /\ x == y) ->
  series_max s = Fin b -> series_max s' = Fin b' -> b == b'.
Proof.
  intros H H' Hb Hb'.
  destruct (series_max_attained _ _ Hb) as [x [Hx Ex]].
  destruct (series_max_attained _ _ Hb') as [x' [Hx' Ex']].
  destruct (H x Hx) as [y [Hy Exy]].
  destruct (H' x' Hx') as [y' [Hy' Exy']].
  pose proof (series_max_ge _ _ _ Hb' Hy).
  pose proof (series_max_ge _ _ _ Hb Hy').
  apply Qle_antisym; lra.
Qed.

Lemma column_perm (f : feature) (df df' : DataFrame) (x : Q) :
  Permutation df df' -> In x (column f df) ->
  exists y, In y (column f df') /\ x == y.
Proof.
  intros HP Hx. exists x. split; [| reflexivity].
  eapply Permutation_in; [apply Permutation_map, HP | exact Hx].
Qed.

Lemma Qlt_bool_comp (x x' y y' : Q) :
  x == x' -> y == y' -> Qlt_bool x y = Qlt_bool x' y'.
Proof.
  intros Ex Ey.
  destruct (Qlt_bool x y) eqn:E; symmetry.
  - apply Qlt_bool_iff. apply Qlt_bool_iff in E. lra.
  - apply Qlt_bool_false_iff. apply Qlt_bool_false_iff in E. lra.
Qed.

Lemma norm_value_perm (df df' : DataFrame) (f : feature) (x : Q) :
  Permutation df df' -> norm_value df f x == norm_value df' f x.
Proof.
  intro HP. unfold norm_value.
  destruct df as [| r t].
  - apply Permutation_nil in HP. subst df'. reflexivity.
  - destruct df' as [| r' t'];
      [apply Permutation_sym, Permutation_nil in HP; discriminate |].
    destruct (series_min_cons (cell f r) (column f t)) as [a Ha].
    destruct (series_max_cons (cell f r) (column f t)) as [b Hb].
    destruct (series_min_cons (cell f r') (column f t')) as [a' Ha'].
    destruct (series_max_cons (cell f r') (column f t')) as [b' Hb'].
    change (cell f r :: column f t) with (column f (r :: t)) in Ha, Hb.
    change (cell f r' :: column f t') with (column f (r' :: t')) in Ha', Hb'.
    assert (Ea : a == a').
    { eapply series_min_same; eauto using column_perm, Permutation_sym.
      intros y Hy.
      destruct (column_perm f _ _ y (Permutation_sym HP) Hy) as [z [Hz E]].
      exists z. split; [exact Hz | symmetry; exact E]. }
    assert (Eb : b == b').
    { eapply series_max_same; eauto using column_perm, Permutation_sym.
      intros y Hy.
      destruct (column_perm f _ _ y (Permutation_sym HP) Hy) as [z [Hz E]].
      exists z. split; [exact Hz | symmetry; exact E]. }
    rewrite Ha, Hb, Ha', Hb'.
    rewrite (Qlt_bool_comp 0 0 (b - a) (b' - a')) by lra.
    destruct (Qlt_bool 0 (b' - a')); [| reflexivity].
    rewrite Ea, Eb. reflexivity.
Qed.

Lemma weighted_sum_comp (r r' : Row) :
  (forall f, cell f r == cell f r') -> weighted_sum r == weighted_sum r'.
Proof.
  intro H. unfold weighted_sum. cbn [weights map fold_left fst snd].
  rewrite (H WalletAgeDays), (H TxCount), (H AvgEthSent),
    (H UniqueRecipients), (H MockLiquidations), (H MockHighLtvBorrows).
  reflexivity.
Qed.

Lemma raw_score_of_perm (df df' : DataFrame) (r : Row) :
  Permutation df df' -> raw_score_of df r == raw_score_of df' r.
Proof.
  intro HP. unfold raw_score_of. apply weighted_sum_comp. intro f.
  rewrite !cell_normalize_row. apply norm_value_perm, HP.
Qed.

Lemma raw_scores_perm (df df' : DataFrame) (x : Q) :
  Permutation df df' -> In x (raw_scores df) ->
  exists y, In y (raw_scores df') /\ x == y.
Proof.
  intros HP Hx. rewrite raw_scores_rows in *.
  apply in_map_iff in Hx. destruct Hx as [r [<- Hr]].
  exists (raw_score_of df' r). split.
  - apply in_map. eapply Permutation_in; eauto.
  - apply raw_score_of_perm, HP.
Qed.

Lemma raw_scores_perm_sym (df df' : DataFrame) (y : Q) :
  Permutation df df' -> In y (raw_scores df') ->
  exists x, In x (raw_scores df) /\ x == y.
Proof.
  intros HP Hy.
  destruct (raw_scores_perm df' df y (Permutation_sym HP) Hy) as [x [Hx E]].
  exists x. split; [exact Hx | symmetry; exact E].
Qed.

Lemma series_bounds_equal (s : list Q) (a b : Q) :
  series_min s = Fin a -> series_max s = Fin b -> a == b ->
  forall x y, In x s -> In y s -> x == y.
Proof.
  intros Ha Hb E x y Hx Hy.
  pose proof (series_min_le _ _ _ Ha Hx).
  pose proof (series_min_le _ _ _ Ha Hy).
  pose proof (series_max_ge _ _ _ Hb Hx).
  pose proof (series_max_ge _ _ _ Hb Hy).
  apply Qle_antisym; lra.
Qed.

Lemma calculate_risk_scores_raises (features_df : DataFrame) (a b : Q) :
  series_min (raw_scores features_df) = Fin a ->
  series_max (raw_scores features_df) = Fin b ->
  a == b ->
  calculate_risk_scores features_df = Raise IntCastingNaNError.
Proof.
  intros Ha Hb E. unfold calculate_risk_scores, final_scores.
  pose proof (series_bounds_equal _ _ _ Ha Hb E) as Hall.
  destruct (raw_scores features_df) as [| y t]; [discriminate |].
  rewrite (astype_int_rescale_degenerate y t Hall). reflexivity.
Qed.

Lemma combine_map {A B C : Type} (f : A -> B) (g : A -> C) (l : list A) :
  combine (map f l) (map g l) = map (fun x => (f x, g x)) l.
Proof. induction l as [| x l IH]; simpl; [| rewrite IH]; reflexivity. Qed.

(** C6.  Permuting the batch permutes the result: every wallet keeps its
    score (and a batch that makes the scorer raise still does). *)
Theorem calculate_risk_scores_perm (features_df features_df' : DataFrame) :
  Permutation features_df features_df' ->
  same_mapping (calculate_risk_scores features_df)
               (calculate_risk_scores features_df').
Proof.
  intro HP.
  destruct features_df as [| r t].
  { apply Permutation_nil in HP. subst. simpl. constructor. }
  destruct features_df' as [| r' t'];
    [apply Permutation_sym, Permutation_nil in HP; discriminate |].
  set (df := r :: t) in *. set (df' := r' :: t') in *.
  destruct (series_min_cons (raw_score_of df r) (map (raw_score_of df) t))
    as [a Ha].
  destruct (series_max_cons (raw_score_of df r) (map (raw_score_of df) t))
    as [b Hb].
  destruct (series_min_cons (raw_score_of df' r') (map (raw_score_of df') t'))
    as [a' Ha'].
  destruct (series_max_cons (raw_score_of df' r') (map (raw_score_of df') t'))
    as [b' Hb'].
  change (series_min (map (raw_score_of df) df) = Fin a) in Ha.
  change (series_max (map (raw_score_of df) df) = Fin b) in Hb.
  change (series_min (map (raw_score_of df') df') = Fin a') in Ha'.
  change (series_max (map (raw_score_of df') df') = Fin b') in Hb'.
  rewrite <- raw_scores_rows in Ha, Hb, Ha', Hb'.
  clearbody df df'.
  assert (Ea : a == a')
    by (eapply series_min_same;
        eauto using raw_scores_perm, raw_scores_perm_sym).
  assert (Eb : b == b')
    by (eapply series_max_same;
        eauto using raw_scores_perm, raw_scores_perm_sym).
  destruct (Qeq_dec a b) as [E | NE].
  - rewrite (calculate_risk_scores_raises df a b Ha Hb E).
    rewrite (calculate_risk_scores_raises df' a' b' Ha' Hb')
      by (rewrite <- Ea, <- Eb; exact E).
    reflexivity.
  - rewrite (calculate_risk_scores_returns df a b Ha Hb NE).
    rewrite (calculate_risk_scores_returns df' a' b' Ha' Hb')
      by (rewrite <- Ea, <- Eb; exact NE).
    rewrite !raw_scores_rows, !map_map, !combine_map.
    rewrite (map_ext
               (fun x => (index x,
                          Qtruncate (1000 * (raw_score_of df' x - a')
                                     / (b' - a'))))
               (fun x => (index x,
                          Qtruncate (1000 * (raw_score_of df x - a)
                                     / (b - a))))).
    + apply Permutation_map, HP.
    + intro x. f_equal. apply Qtruncate_comp.
      rewrite (raw_score_of_perm df df' x HP), Ea, Eb. reflexivity.
Qed.

Lemma calculate_risk_scores_perm_witness :
  same_mapping (calculate_risk_scores [rowA; rowB])
               (calculate_risk_scores [rowB; rowA]).
Proof.
  apply (calculate_risk_scores_perm [rowA; rowB] [rowB; rowA]).
  apply perm_swap.
Defined.

(** * The feature extractor *)

Lemma bind_Ok {A B : Type} (m : result A) (k : A -> result B) (b : B) :
  bind m k = Ok b -> exists a, m = Ok a /\ k a = Ok b.
Proof. destruct m as [a | e]; simpl; [eauto | discriminate]. Qed.

Ltac bind_inv H :=
  let a := fresh "a" in
  let E := fresh "E" in
  apply bind_Ok in H; destruct H as [a [E H]].

(** C3 (as amended).  A wallet without transactions gets the record whose six
    features are 0, the two flags included, whatever its address. *)
Theorem calculate_features_empty (wallet_address : string) (now : Z) :
  calculate_features [] wallet_address now
  = Ok (mkFeatures wallet_address 0 0 (Fin 0) 0 0 0).
Proof. reflexivity. Qed.

(** C3 (as stated) fails: the address ["0xa0"] ends in a character of
    ["012"] after one of ["abc"], and its flags are 0 all the same. *)
Lemma flags_from_address_fails : ~ flags_from_address [] "0xa0" 0.
Proof.
  intros [liq [ltv [Hliq [Hltv H]]]].
  vm_compute in Hliq. vm_compute in Hltv.
  injection Hliq as <-. injection Hltv as <-.
  vm_compute in H. discriminate.
Qed.

(** With transactions, the flags do follow the address. *)
Lemma calculate_features_flags (transactions : list RawTransaction)
    (wallet_address : string) (now : Z) (r : FeatureRecord) :
  transactions <> [] ->
  calculate_features transactions wallet_address now = Ok r ->
  exists liq ltv,
    last_char_in wallet_address 1 "012" = Ok liq /\
    last_char_in wallet_address 2 "abc" = Ok ltv /\
    mock_liquidations r = Z.b2z liq /\
    mock_high_ltv_borrows r = Z.b2z ltv.
Proof.
  intros Hne H. destruct transactions as [| tx txs]; [contradiction |].
  unfold calculate_features in H.
  repeat bind_inv H. injection H as <-.
  eexists _, _. repeat split; eassumption.
Qed.

(** ** Counting *)

Lemma present_length {A : Type} (col : list (option A)) :
  (List.length (present col) <= List.length col)%nat.
Proof.
  induction col as [| [a |] col IH]; simpl; lia.
Qed.

Lemma nodup_length {A : Type} (dec : forall x y : A, {x = y} + {x <> y})
    (l : list A) :
  (List.length (nodup dec l) <= List.length l)%nat.
Proof.
  induction l as [| x l IH]; simpl; [lia |].
  destruct (in_dec dec x l); simpl; lia.
Qed.

Lemma nunique_le_length (s : list (option string)) :
  (nunique s <= Z.of_nat (List.length s))%Z.
Proof.
  unfold nunique. apply inj_le.
  eapply Nat.le_trans; [apply nodup_length | apply present_length].
Qed.

Lemma nunique_nonneg (s : list (option string)) : (0 <= nunique s)%Z.
Proof. unfold nunique. lia. Qed.

(** C8.  The record the extractor returns never has more distinct recipients
    than transactions. *)
Theorem unique_recipients_le_tx_count (transactions : list RawTransaction)
    (wallet_address : string) (now : Z) (r : FeatureRecord) :
  calculate_features transactions wallet_address now = Ok r ->
  (unique_recipients r <= tx_count r)%Z.
Proof.
  intro H. destruct transactions as [| tx txs].
  - injection H as <-. simpl. lia.
  - unfold calculate_features in H.
    set (df := tx :: txs) in H. clearbody df.
    repeat bind_inv H. injection H as <-.
    cbn [unique_recipients tx_count].
    eapply Z.le_trans; [apply nunique_le_length |].
    rewrite length_map. apply inj_le, filter_length_le.
Qed.

Lemma unique_recipients_le_tx_count_witness :
  exists r,
    calculate_features [tx_sent; tx_received] "0xab" three_days = Ok r
    /\ (unique_recipients r <= tx_count r)%Z.
Proof.
  eexists. split; [reflexivity |].
  apply (unique_recipients_le_tx_count [tx_sent; tx_received] "0xab"
           three_days).
  reflexivity.
Defined.

(** ** A wallet that only receives *)

Lemma is_sent_false (wallet_address : string) (tx : RawTransaction) :
  (forall sender, tx_from tx = Some sender ->
                  lower sender <> lower wallet_address) ->
  is_sent wallet_address tx = false.
Proof.
  intro H. unfold is_sent. destruct (tx_from tx) as [s |]; [| reflexivity].
  apply String.eqb_neq. apply H. reflexivity.
Qed.

Lemma filter_none {A : Type} (p : A -> bool) (l : list A) :
  (forall x, In x l -> p x = false) -> filter p l = [].
Proof.
  induction l as [| x l IH]; intro H; simpl; [reflexivity |].
  rewrite (H x (or_introl eq_refl)). apply IH.
  intros y Hy. apply H. right. exact Hy.
Qed.

(** C10.  When no transaction of a non-empty list was sent by the wallet,
    letter case aside, the record has [avg_eth_sent] 0. *)
Theorem avg_eth_sent_only_receives (transactions : list RawTransaction)
    (wallet_address : string) (now : Z) (r : FeatureRecord) :
  transactions <> [] ->
  (forall tx sender, In tx transactions -> tx_from tx = Some sender ->
                     lower sender <> lower wallet_address) ->
  calculate_features transactions wallet_address now = Ok r ->
  avg_eth_sent r = Fin 0.
Proof.
  intros Hne Hrecv H. destruct transactions as [| tx txs]; [contradiction |].
  unfold calculate_features in H.
  rewrite (filter_none (is_sent wallet_address) (tx :: txs)) in H.
  - repeat bind_inv H. injection H as <-. reflexivity.
  - intros x Hx. apply is_sent_false. intros s Hs. eapply Hrecv; eauto.
Qed.

Lemma avg_eth_sent_only_receives_witness :
  exists r,
    calculate_features [tx_received] "0xab" three_days = Ok r
    /\ avg_eth_sent r = Fin 0.
Proof.
  eexists. split; [reflexivity |].
  apply (avg_eth_sent_only_receives [tx_received] "0xab" three_days).
  - discriminate.
  - intros tx sender [<- | []] H. injection H as <-. discriminate.
  - reflexivity.
Defined.

(** ** Transactions that lack a field *)

Lemma present_In {A : Type} (col : list (option A)) (a : A) :
  In (Some a) col -> In a (present col).
Proof.
  induction col as [| [b |] col IH]; simpl.
  - intros [].
  - intros [H | H]; [injection H as H; left; exact H | right; auto].
  - intros [H | H]; [discriminate | auto].
Qed.

Lemma getitem_has_key {A : Type} (key : string)
    (get : RawTransaction -> option A) (df : list RawTransaction) :
  has_key get df -> getitem key get df = Ok (map get df).
Proof.
  intros [tx [Hin Hget]]. unfold getitem.
  destruct (get tx) as [a |] eqn:E; [| contradiction].
  assert (Ha : In a (present (map get df))).
  { apply present_In. rewrite <- E. apply in_map, Hin. }
  destruct (present (map get df)); [contradiction | reflexivity].
Qed.

Lemma list_ascii_length (s : string) :
  List.length (list_ascii_of_string s) = String.length s.
Proof. induction s as [| c s IH]; simpl; [| rewrite IH]; reflexivity. Qed.

Lemma char_from_end_Ok (s : string) (k : nat) :
  (1 <= k <= String.length s)%nat -> exists c, char_from_end s k = Ok c.
Proof.
  intro Hk. unfold char_from_end.
  destruct (nth_error (rev (list_ascii_of_string s)) (k - 1)) as [c |] eqn:E.
  - exists c. reflexivity.
  - apply nth_error_None in E.
    rewrite length_rev, list_ascii_length in E. lia.
Qed.

Lemma last_char_in_Ok (s : string) (k : nat) (chars : string) :
  (1 <= k <= String.length s)%nat ->
  exists b, last_char_in s k chars = Ok b.
Proof.
  intro Hk. unfold last_char_in.
  destruct (char_from_end_Ok s k Hk) as [c ->]. simpl. eauto.
Qed.

(** C9 (as amended).  When every key is on some transaction of the list and
    the address has two characters, the extractor returns a record although
    transactions lack fields; it skips none of them: [tx_count] is the length
    of the whole list. *)
Theorem calculate_features_keeps_malformed
    (transactions : list RawTransaction) (wallet_address : string) (now : Z) :
  (2 <= String.length wallet_address)%nat ->
  has_key value transactions ->
  has_key timeStamp transactions ->
  has_key tx_from transactions ->
  has_key tx_to transactions ->
  exists r,
    calculate_features transactions wallet_address now = Ok r /\
    tx_count r = Z.of_nat (List.length transactions).
Proof.
  intros Hlen Hv Ht Hf Hto.
  destruct transactions as [| tx txs]; [destruct Hv as [? [[] _]] |].
  unfold calculate_features.
  set (df := tx :: txs) in *. clearbody df.
  rewrite (getitem_has_key "value" value df Hv).
  rewrite (getitem_has_key "timeStamp" timeStamp df Ht).
  rewrite (getitem_has_key "from" tx_from df Hf).
  rewrite (getitem_has_key "to" tx_to df Hto).
  cbn [bind].
  destruct Ht as [tx' [Hin Hts]].
  destruct (timeStamp tx') as [t0 |] eqn:Et; [| contradiction].
  assert (Hp : In t0 (present (map timeStamp df))).
  { apply present_In. rewrite <- Et. apply in_map, Hin. }
  destruct (present (map timeStamp df)) as [| t ts]; [contradiction |].
  destruct (last_char_in_Ok wallet_address 1 "012") as [liq ->]; [lia |].
  destruct (last_char_in_Ok wallet_address 2 "abc") as [ltv ->]; [lia |].
  cbn [bind]. eexists. split; reflexivity.
Qed.

Lemma calculate_features_keeps_malformed_witness :
  exists r,
    calculate_features [tx_sent; tx_no_sender] "0xab" three_days = Ok r
    /\ tx_count r = 2%Z.
Proof.
  apply (calculate_features_keeps_malformed [tx_sent; tx_no_sender] "0xab"
           three_days).
  - simpl. lia.
  - exists tx_sent. split; [left; reflexivity | discriminate].
  - exists tx_sent. split; [left; reflexivity | discriminate].
  - exists tx_sent. split; [left; reflexivity | discriminate].
  - exists tx_sent. split; [left; reflexivity | discriminate].
Defined.

(** C9 (as stated) fails: a transaction without sender is counted. *)
Lemma skips_malformed_fails :
  ~ skips_malformed [tx_sent; tx_no_sender] "0xab" three_days.
Proof.
  intros [r [H H']]. vm_compute in H. vm_compute in H'.
  injection H as <-. discriminate H'.
Qed.

(** And a key that no transaction has aborts the extraction. *)
Lemma calculate_features_aborts :
  calculate_features [tx_no_value] "0xab" three_days
  = Raise (KeyError "value")
  /\ calculate_features (filter well_formed [tx_no_value]) "0xab" three_days
     = Ok (mkFeatures "0xab" 0 0 (Fin 0) 0 0 0).
Proof. split; reflexivity. Qed.

(** ** The pipeline and the binary64 replay *)

Example two_wallets_scored :
  (df <- two_wallets ;; calculate_risk_scores df)
  = Ok [("0xab"%string, 1000%Z); ("0xa0"%string, 0%Z)].
Proof. vm_compute. reflexivity. Qed.

(** In binary64 the raw score of B is the float next below 1.4 and its
    quotient the float next above 1000: the cast still gives 1000, and A gets
    0 exactly. *)
Lemma binary64_example :
  Binary64.rescale Binary64.raw_A Binary64.raw_B Binary64.raw_A = 0%float
  /\ Binary64.rescale Binary64.raw_A Binary64.raw_B Binary64.raw_B
     = Binary64.final_B
  /\ PrimFloat.leb 1000 Binary64.final_B = true
  /\ PrimFloat.ltb Binary64.final_B 1001 = true.
Proof. repeat split; vm_compute; reflexivity. Qed.

(** And the quotient of a one-wallet batch is NaN there too. *)
Lemma binary64_degenerate :
  PrimFloat.is_nan
    (Binary64.rescale Binary64.raw_B Binary64.raw_B Binary64.raw_B) = true.
Proof. vm_compute. reflexivity. Qed.

(** * Further properties of the batch scorer *)

(** What a successful run on a batch that is not empty looks like. *)
Lemma calculate_risk_scores_Ok_inv (features_df : DataFrame)
    (scores : list (string * Z)) :
  features_df <> [] ->
  calculate_risk_scores features_df = Ok scores ->
  exists a b,
    series_min (raw_scores features_df) = Fin a /\
    series_max (raw_scores features_df) = Fin b /\
    a < b /\
    scores = combine (map index features_df)
               (map (fun x => Qtruncate (1000 * (x - a) / (b - a)))
                    (raw_scores features_df)).
Proof.
  intros Hne H.
  destruct (raw_scores features_df) as [| y t] eqn:Er;
    [apply raw_scores_nil in Er; contradiction |].
  destruct (series_min_cons y t) as [a Ha].
  destruct (series_max_cons y t) as [b Hb].
  rewrite <- Er in Ha, Hb.
  destruct (Qeq_dec a b) as [E | NE].
  - rewrite (calculate_risk_scores_raises _ a b Ha Hb E) in H. discriminate.
  - rewrite (calculate_risk_scores_returns _ a b Ha Hb NE) in H.
    injection H as <-. exists a, b. rewrite Er in *.
    repeat split; try assumption.
    pose proof (series_min_le_max _ _ _ Ha Hb).
    apply Qle_lteq in H. destruct H; [assumption | contradiction].
Qed.

Lemma norm_value_unit (df : DataFrame) (f : feature) (r : Row) :
  In r df -> 0 <= norm_value df f (cell f r) <= 1.
Proof.
  intro Hr. unfold norm_value.
  destruct (series_min (column f df)) as [a | |] eqn:Ha; try lra.
  destruct (series_max (column f df)) as [b | |] eqn:Hb; try lra.
  destruct (Qlt_bool 0 (b - a)) eqn:G; [| lra].
  apply Qlt_bool_iff in G.
  assert (Hin : In (cell f r) (column f df)) by (apply in_map, Hr).
  pose proof (series_min_le _ _ _ Ha Hin).
  pose proof (series_max_ge _ _ _ Hb Hin).
  split.
  - apply Qle_shift_div_l; [exact G | lra].
  - apply Qle_shift_div_r; [exact G | lra].
Qed.

Lemma weighted_sum_bounds (r : Row) :
  (forall f, 0 <= cell f r <= 1) -> -0.1 <= weighted_sum r <= 1.5.
Proof.
  intro H.
  pose proof (H WalletAgeDays). pose proof (H TxCount).
  pose proof (H AvgEthSent). pose proof (H UniqueRecipients).
  pose proof (H MockLiquidations). pose proof (H MockHighLtvBorrows).
  unfold weighted_sum. cbn [weights map fold_left fst snd].
  lra.
Qed.

(** X1.  The normalised frame holds numbers between 0 and 1 only, whatever
    the magnitudes in [features_df]. *)
Theorem normalize_unit_interval (features_df : DataFrame) (f : feature)
    (r : Row) :
  In r (normalize features_df) -> 0 <= cell f r <= 1.
Proof.
  rewrite normalize_rows. intro H. apply in_map_iff in H.
  destruct H as [r0 [<- Hr0]]. rewrite cell_normalize_row.
  apply norm_value_unit, Hr0.
Qed.

Lemma normalize_unit_interval_witness :
  0 <= cell TxCount (nth 1 (normalize [rowA; rowB]) rowA) <= 1.
Proof.
  apply (normalize_unit_interval [rowA; rowB] TxCount).
  vm_compute. right. left. reflexivity.
Defined.

(** X2.  Every raw score lies between the one negative weight and the sum of
    the positive ones. *)
Theorem raw_scores_bounds (features_df : DataFrame) (x : Q) :
  In x (raw_scores features_df) -> -0.1 <= x <= 1.5.
Proof.
  rewrite raw_scores_rows. intro H. apply in_map_iff in H.
  destruct H as [r [<- Hr]]. unfold raw_score_of.
  apply weighted_sum_bounds. intro f. rewrite cell_normalize_row.
  apply norm_value_unit, Hr.
Qed.

Lemma raw_scores_bounds_witness :
  -0.1 <= nth 1 (raw_scores [rowA; rowB]) 0 <= 1.5.
Proof.
  apply (raw_scores_bounds [rowA; rowB]).
  vm_compute. right. left. reflexivity.
Defined.

Lemma scores_as_rows (features_df : DataFrame) (a b : Q) :
  combine (map index features_df)
    (map (fun x => Qtruncate (1000 * (x - a) / (b - a)))
         (raw_scores features_df))
  = map (fun r =>
           (index r,
            Qtruncate (1000 * (raw_score_of features_df r - a) / (b - a))))
        features_df.
Proof. rewrite raw_scores_rows, map_map, combine_map. reflexivity. Qed.

(** X3.  The result has one score per wallet, under the index of
    [features_df] and in its order. *)
Theorem calculate_risk_scores_index (features_df : DataFrame)
    (scores : list (string * Z)) :
  calculate_risk_scores features_df = Ok scores ->
  map fst scores = map index features_df.
Proof.
  intro H. destruct features_df as [| r t].
  - injection H as <-. reflexivity.
  - apply calculate_risk_scores_Ok_inv in H; [| discriminate].
    destruct H as [a [b [_ [_ [_ ->]]]]].
    rewrite scores_as_rows, map_map. reflexivity.
Qed.

Lemma calculate_risk_scores_index_witness :
  map fst [("A"%string, 0%Z); ("B"%string, 1000%Z)] = map index [rowA; rowB].
Proof.
  apply (calculate_risk_scores_index [rowA; rowB]). reflexivity.
Defined.

(** X5.  When the scorer returns on a batch that is not empty, some wallet
    scores 0: the lowest raw score is the zero of the scale, whatever the
    features of that wallet are. *)
Theorem calculate_risk_scores_lowest (features_df : DataFrame)
    (scores : list (string * Z)) :
  features_df <> [] ->
  calculate_risk_scores features_df = Ok scores ->
  exists low, In (low, 0%Z) scores.
Proof.
  intros Hne H.
  apply calculate_risk_scores_Ok_inv in H; [| exact Hne].
  destruct H as [a [b [Ha [Hb [Hlt ->]]]]].
  rewrite scores_as_rows.
  destruct (series_min_attained _ _ Ha) as [x [Hx Ex]].
  rewrite raw_scores_rows in Hx.
  apply in_map_iff in Hx. destruct Hx as [rx [Erx Hrx]].
  exists (index rx).
  apply in_map_iff. exists rx. split; [| exact Hrx]. f_equal.
  rewrite Erx. transitivity (Qtruncate 0); [| reflexivity].
  apply Qtruncate_comp. rewrite Ex. field. lra.
Qed.

Lemma calculate_risk_scores_lowest_witness :
  exists low, In (low, 0%Z) [("A"%string, 0%Z); ("B"%string, 1000%Z)].
Proof.
  apply (calculate_risk_scores_lowest [rowA; rowB]);
    [discriminate | reflexivity].
Defined.

Lemma rescale_monotone (a b x y : Q) :
  a < b -> a <= x -> x <= y ->
  (Qtruncate (1000 * (x - a) / (b - a))
   <= Qtruncate (1000 * (y - a) / (b - a)))%Z.
Proof.
  intros Hab Hax Hxy.
  assert (Hinv : 0 <= / (b - a))
    by (apply Qlt_le_weak, Qinv_lt_0_compat; lra).
  assert (H0 : 0 <= 1000 * (x - a) / (b - a))
    by (apply Qmult_le_0_compat; [lra | exact Hinv]).
  assert (Hle : 1000 * (x - a) / (b - a) <= 1000 * (y - a) / (b - a))
    by (apply Qmult_le_compat_r; [lra | exact Hinv]).
  rewrite !Qtruncate_nonneg by lra.
  apply Qfloor_resp_le, Hle.
Qed.

(** X6.  The rescaling keeps the order of the raw scores: a wallet whose raw
    score is not above another's does not get the higher score. *)
Theorem calculate_risk_scores_monotone (features_df : DataFrame)
    (scores : list (string * Z)) (i j : nat) (x y : Q) (s t : string * Z) :
  calculate_risk_scores features_df = Ok scores ->
  nth_error (raw_scores features_df) i = Some x ->
  nth_error (raw_scores features_df) j = Some y ->
  nth_error scores i = Some s ->
  nth_error scores j = Some t ->
  x <= y ->
  (snd s <= snd t)%Z.
Proof.
  intros H Hx Hy Hs Ht Hxy.
  destruct features_df as [| r0 t0];
    [injection H as <-; destruct i; discriminate |].
  apply calculate_risk_scores_Ok_inv in H; [| discriminate].
  destruct H as [a [b [Ha [Hb [Hlt ->]]]]].
  rewrite scores_as_rows in Hs, Ht.
  pose proof (series_min_le _ _ _ Ha (nth_error_In _ _ Hx)) as Hax.
  rewrite raw_scores_rows in Hx, Hy.
  rewrite nth_error_map in Hx, Hy, Hs, Ht.
  destruct (nth_error (r0 :: t0) i) as [ri |]; [| discriminate].
  destruct (nth_error (r0 :: t0) j) as [rj |]; [| discriminate].
  simpl in Hx, Hy, Hs, Ht.
  injection Hx as <-. injection Hy as <-.
  injection Hs as <-. injection Ht as <-.
  simpl. apply rescale_monotone; assumption.
Qed.

Lemma calculate_risk_scores_monotone_witness : (0 <= 1000)%Z.
Proof.
  apply (calculate_risk_scores_monotone [rowA; rowB]
           [("A"%string, 0%Z); ("B"%string, 1000%Z)] 0 1
           (nth 0 (raw_scores [rowA; rowB]) 0)
           (nth 1 (raw_scores [rowA; rowB]) 0)
           ("A"%string, 0%Z) ("B"%string, 1000%Z));
    try reflexivity.
  vm_compute. discriminate.
Defined.

(** * Further properties of the feature extractor *)

Lemma present_In_inv {A : Type} (col : list (option A)) (a : A) :
  In a (present col) -> In (Some a) col.
Proof.
  induction col as [| [b |] col IH]; simpl.
  - intros [].
  - intros [-> | H]; [left; reflexivity | right; auto].
  - intro H. right. auto.
Qed.

Lemma has_key_present {A : Type} (get : RawTransaction -> option A)
    (df : list RawTransaction) :
  has_key get df <-> present (map get df) <> [].
Proof.
  split.
  - intros [tx [Hin Hget]] E.
    destruct (get tx) as [a |] eqn:Ea; [| contradiction].
    assert (H : In a (present (map get df)))
      by (apply present_In; rewrite <- Ea; apply in_map, Hin).
    rewrite E in H. exact H.
  - intro H. destruct (present (map get df)) as [| a l] eqn:E;
      [contradiction |].
    assert (Ha : In a (present (map get df)))
      by (rewrite E; left; reflexivity).
    apply present_In_inv, in_map_iff in Ha. destruct Ha as [tx [Ea Hin]].
    exists tx. split; [exact Hin | congruence].
Qed.

Lemma getitem_Ok_inv {A : Type} (key : string)
    (get : RawTransaction -> option A) (df : list RawTransaction)
    (col : list (option A)) :
  getitem key get df = Ok col -> has_key get df.
Proof.
  unfold getitem. intro H. apply has_key_present.
  destruct (present (map get df)); [discriminate | discriminate].
Qed.

Lemma getitem_missing {A : Type} (key : string)
    (get : RawTransaction -> option A) (df : list RawTransaction) :
  ~ has_key get df -> getitem key get df = Raise (KeyError key).
Proof.
  intro H. unfold getitem.
  destruct (present (map get df)) eqn:E; [reflexivity |].
  exfalso. apply H, has_key_present. rewrite E. discriminate.
Qed.

Lemma last_char_in_Ok_inv (s : string) (k : nat) (chars : string) (b : bool) :
  (1 <= k)%nat -> last_char_in s k chars = Ok b -> (k <= String.length s)%nat.
Proof.
  intros Hk H. unfold last_char_in, char_from_end in H.
  destruct (nth_error (rev (list_ascii_of_string s)) (k - 1)) eqn:E;
    [| discriminate].
  assert (Hlt : (k - 1 < List.length (rev (list_ascii_of_string s)))%nat)
    by (apply nth_error_Some; congruence).
  rewrite length_rev, list_ascii_length in Hlt. lia.
Qed.

Lemma last_char_in_short (s : string) (k : nat) (chars : string) :
  (String.length s < k)%nat -> last_char_in s k chars = Raise IndexError.
Proof.
  intro H. unfold last_char_in, char_from_end.
  destruct (nth_error (rev (list_ascii_of_string s)) (k - 1)) eqn:E;
    [| reflexivity].
  assert (Hlt : (k - 1 < List.length (rev (list_ascii_of_string s)))%nat)
    by (apply nth_error_Some; congruence).
  rewrite length_rev, list_ascii_length in Hlt. lia.
Qed.

(** The record of a wallet with transactions, field by field. *)
Lemma calculate_features_Ok_inv (transactions : list RawTransaction)
    (wallet_address : string) (now : Z) (r : FeatureRecord) :
  transactions <> [] ->
  calculate_features transactions wallet_address now = Ok r ->
  has_key value transactions /\
  has_key timeStamp transactions /\
  has_key tx_from transactions /\
  has_key tx_to transactions /\
  exists t ts liq ltv,
    present (map timeStamp transactions) = t :: ts /\
    last_char_in wallet_address 1 "012" = Ok liq /\
    last_char_in wallet_address 2 "abc" = Ok ltv /\
    r = mkFeatures wallet_address
          ((now - Zmin_list t ts * 1000000) / microseconds_per_day)%Z
          (Z.of_nat (List.length transactions))
          match filter (is_sent wallet_address) transactions with
          | [] => Fin 0
          | _ :: _ =>
              series_mean
                (map (fun tx => option_map wei_to_ether (value tx))
                     (filter (is_sent wallet_address) transactions))
          end
          (nunique (map tx_to (filter (is_sent wallet_address) transactions)))
          (Z.b2z liq) (Z.b2z ltv).
Proof.
  intros Hne H. destruct transactions as [| tx txs]; [contradiction |].
  unfold calculate_features in H.
  set (df := tx :: txs) in *. clearbody df.
  bind_inv H. apply getitem_Ok_inv in E.
  bind_inv H. pose proof (getitem_Ok_inv _ _ _ _ E0) as Hts.
  unfold getitem in E0.
  destruct (present (map timeStamp df)) as [| t ts] eqn:Ep; [discriminate |].
  injection E0 as <-. rewrite Ep in H.
  bind_inv H. injection E0 as <-.
  bind_inv H. apply getitem_Ok_inv in E0.
  bind_inv H. apply getitem_Ok_inv in E1.
  bind_inv H. bind_inv H. injection H as <-.
  repeat (split; [assumption |]).
  do 4 eexists. repeat split; eassumption.
Qed.

Lemma calculate_features_Ok (transactions : list RawTransaction)
    (wallet_address : string) (now : Z) :
  has_key value transactions ->
  has_key timeStamp transactions ->
  has_key tx_from transactions ->
  has_key tx_to transactions ->
  (2 <= String.length wallet_address)%nat ->
  exists r, calculate_features transactions wallet_address now = Ok r.
Proof.
  intros Hv Ht Hf Hto Hlen.
  destruct transactions as [| tx txs]; [eexists; reflexivity |].
  unfold calculate_features.
  set (df := tx :: txs) in *. clearbody df.
  rewrite (getitem_has_key "value" value df Hv).
  rewrite (getitem_has_key "timeStamp" timeStamp df Ht).
  rewrite (getitem_has_key "from" tx_from df Hf).
  rewrite (getitem_has_key "to" tx_to df Hto).
  cbn [bind].
  apply has_key_present in Ht.
  destruct (present (map timeStamp df)) as [| t ts]; [contradiction |].
  destruct (last_char_in_Ok wallet_address 1 "012") as [liq ->]; [lia |].
  destruct (last_char_in_Ok wallet_address 2 "abc") as [ltv ->]; [lia |].
  cbn [bind]. eexists. reflexivity.
Qed.

(** X8.  The extractor returns a record only when the wallet has no
    transaction, or each of the four keys is on some transaction and the
    address has at least two characters. *)
Theorem calculate_features_returns_only_if
    (transactions : list RawTransaction) (wallet_address : string) (now : Z)
    (r : FeatureRecord) :
  calculate_features transactions wallet_address now = Ok r ->
  transactions = []
  \/ (has_key value transactions /\ has_key timeStamp transactions /\
      has_key tx_from transactions /\ has_key tx_to transactions /\
      (2 <= String.length wallet_address)%nat).
Proof.
  intro H.
  destruct transactions as [| tx txs]; [left; reflexivity | right].
  apply calculate_features_Ok_inv in H; [| discriminate].
  destruct H as [Hv [Ht [Hf [Hto [t [ts [liq [ltv [_ [_ [Hltv _]]]]]]]]]]].
  repeat (split; [assumption |]).
  apply (last_char_in_Ok_inv _ 2 _ _ (le_S _ _ (le_n 1)) Hltv).
Qed.

Lemma calculate_features_returns_only_if_witness :
  [tx_sent; tx_received] = []
  \/ (has_key value [tx_sent; tx_received] /\
      has_key timeStamp [tx_sent; tx_received] /\
      has_key tx_from [tx_sent; tx_received] /\
      has_key tx_to [tx_sent; tx_received] /\
      (2 <= String.length "0xab")%nat).
Proof.
  eapply (calculate_features_returns_only_if [tx_sent; tx_received] "0xab"
            three_days).
  reflexivity.
Defined.

(** X9.  With transactions, the first key that no transaction has, in the
    order value, timeStamp, from, to, is the [KeyError] raised. *)
Theorem calculate_features_missing_key (transactions : list RawTransaction)
    (wallet_address : string) (now : Z) :
  transactions <> [] ->
  (~ has_key value transactions ->
   calculate_features transactions wallet_address now
   = Raise (KeyError "value")) /\
  (has_key value transactions -> ~ has_key timeStamp transactions ->
   calculate_features transactions wallet_address now
   = Raise (KeyError "timeStamp")) /\
  (has_key value transactions -> has_key timeStamp transactions ->
   ~ has_key tx_from transactions ->
   calculate_features transactions wallet_address now
   = Raise (KeyError "from")) /\
  (has_key value transactions -> has_key timeStamp transactions ->
   has_key tx_from transactions -> ~ has_key tx_to transactions ->
   calculate_features transactions wallet_address now
   = Raise (KeyError "to")).
Proof.
  intro Hne. destruct transactions as [| tx txs]; [contradiction |].
  unfold calculate_features.
  set (df := tx :: txs) in *. clearbody df.
  repeat split.
  - intro Hv. rewrite (getitem_missing "value" value df Hv). reflexivity.
  - intros Hv Ht. rewrite (getitem_has_key "value" value df Hv).
    rewrite (getitem_missing "timeStamp" timeStamp df Ht). reflexivity.
  - intros Hv Ht Hf. rewrite (getitem_has_key "value" value df Hv).
    rewrite (getitem_has_key "timeStamp" timeStamp df Ht).
    rewrite (getitem_missing "from" tx_from df Hf).
    cbn [bind]. apply has_key_present in Ht.
    destruct (present (map timeStamp df)); [contradiction | reflexivity].
  - intros Hv Ht Hf Hto. rewrite (getitem_has_key "value" value df Hv).
    rewrite (getitem_has_key "timeStamp" timeStamp df Ht).
    rewrite (getitem_has_key "from" tx_from df Hf).
    rewrite (getitem_missing "to" tx_to df Hto).
    cbn [bind]. apply has_key_present in Ht.
    destruct (present (map timeStamp df)); [contradiction | reflexivity].
Qed.

Lemma calculate_features_missing_key_witness :
  calculate_features [tx_no_sender] "0xab" three_days
  = Raise (KeyError "from").
Proof.
  apply (calculate_features_missing_key [tx_no_sender] "0xab" three_days).
  - discriminate.
  - exists tx_no_sender. split; [left; reflexivity | discriminate].
  - exists tx_no_sender. split; [left; reflexivity | discriminate].
  - intros [tx [[<- | []] H]]. apply H. reflexivity.
Defined.

(** X10.  With transactions that have the four keys, an address of fewer
    than two characters makes the extractor raise [IndexError]. *)
Theorem calculate_features_short_address
    (transactions : list RawTransaction) (wallet_address : string) (now : Z) :
  transactions <> [] ->
  has_key value transactions ->
  has_key timeStamp transactions ->
  has_key tx_from transactions ->
  has_key tx_to transactions ->
  (String.length wallet_address < 2)%nat ->
  calculate_features transactions wallet_address now = Raise IndexError.
Proof.
  intros Hne Hv Ht Hf Hto Hlen.
  destruct transactions as [| tx txs]; [contradiction |].
  unfold calculate_features.
  set (df := tx :: txs) in *. clearbody df.
  rewrite (getitem_has_key "value" value df Hv).
  rewrite (getitem_has_key "timeStamp" timeStamp df Ht).
  rewrite (getitem_has_key "from" tx_from df Hf).
  rewrite (getitem_has_key "to" tx_to df Hto).
  cbn [bind]. apply has_key_present in Ht.
  destruct (present (map timeStamp df)) as [| t ts]; [contradiction |].
  cbn [bind].
  destruct (Nat.eq_dec (String.length wallet_address) 0) as [E0 | N0].
  - rewrite (last_char_in_short wallet_address 1 "012") by lia. reflexivity.
  - destruct (last_char_in_Ok wallet_address 1 "012") as [liq ->]; [lia |].
    rewrite (last_char_in_short wallet_address 2 "abc") by lia. reflexivity.
Qed.

Lemma calculate_features_short_address_witness :
  calculate_features [tx_sent] "0" three_days = Raise IndexError.
Proof.
  apply (calculate_features_short_address [tx_sent] "0" three_days).
  - discriminate.
  - exists tx_sent. split; [left; reflexivity | discriminate].
  - exists tx_sent. split; [left; reflexivity | discriminate].
  - exists tx_sent. split; [left; reflexivity | discriminate].
  - exists tx_sent. split; [left; reflexivity | discriminate].
  - simpl. lia.
Defined.

(** X11.  The record is about the wallet asked for; its counts are not
    negative and its two flags are 0 or 1. *)
Theorem calculate_features_fields (transactions : list RawTransaction)
    (addr : string) (now : Z) (r : FeatureRecord) :
  calculate_features transactions addr now = Ok r ->
  wallet_address r = addr /\
  (0 <= tx_count r)%Z /\
  (0 <= unique_recipients r)%Z /\
  (mock_liquidations r = 0 \/ mock_liquidations r = 1)%Z /\
  (mock_high_ltv_borrows r = 0 \/ mock_high_ltv_borrows r = 1)%Z.
Proof.
  intro H. destruct transactions as [| tx txs].
  - injection H as <-. simpl. repeat split; auto; lia.
  - apply calculate_features_Ok_inv in H; [| discriminate].
    destruct H as [_ [_ [_ [_ [t [ts [liq [ltv [_ [_ [_ ->]]]]]]]]]]].
    cbn [wallet_address tx_count unique_recipients mock_liquidations
         mock_high_ltv_borrows].
    repeat split.
    + lia.
    + apply nunique_nonneg.
    + destruct liq; auto.
    + destruct ltv; auto.
Qed.

Lemma calculate_features_fields_witness :
  exists r,
    calculate_features [tx_sent; tx_received] "0xab" three_days = Ok r /\
    wallet_address r = "0xab"%string /\
    (0 <= tx_count r)%Z /\
    (0 <= unique_recipients r)%Z /\
    (mock_liquidations r = 0 \/ mock_liquidations r = 1)%Z /\
    (mock_high_ltv_borrows r = 0 \/ mock_high_ltv_borrows r = 1)%Z.
Proof.
  eexists. split; [reflexivity |].
  apply (calculate_features_fields [tx_sent; tx_received] "0xab" three_days).
  reflexivity.
Defined.

(** X12.  A wallet that sent none of the transactions has no recipient. *)
Theorem unique_recipients_only_receives (transactions : list RawTransaction)
    (wallet_address : string) (now : Z) (r : FeatureRecord) :
  (forall tx sender, In tx transactions -> tx_from tx = Some sender ->
                     lower sender <> lower wallet_address) ->
  calculate_features transactions wallet_address now = Ok r ->
  unique_recipients r = 0%Z.
Proof.
  intros Hrecv H. destruct transactions as [| tx txs].
  - injection H as <-. reflexivity.
  - apply calculate_features_Ok_inv in H; [| discriminate].
    destruct H as [_ [_ [_ [_ [t [ts [liq [ltv [_ [_ [_ ->]]]]]]]]]]].
    cbn [unique_recipients].
    rewrite (filter_none (is_sent wallet_address) (tx :: txs));
      [reflexivity |].
    intros x Hx. apply is_sent_false. intros s Hs. eapply Hrecv; eauto.
Qed.

Lemma unique_recipients_only_receives_witness :
  exists r,
    calculate_features [tx_received] "0xab" three_days = Ok r
    /\ unique_recipients r = 0%Z.
Proof.
  eexists. split; [reflexivity |].
  apply (unique_recipients_only_receives [tx_received] "0xab" three_days).
  - intros tx sender [<- | []] H. injection H as <-. discriminate.
  - reflexivity.
Defined.

Lemma fold_left_Qplus_nonneg (l : list Q) (acc : Q) :
  0 <= acc -> (forall x, In x l -> 0 <= x) -> 0 <= fold_left Qplus l acc.
Proof.
  revert acc. induction l as [| x l IH]; intros acc Hacc H; simpl.
  - exact Hacc.
  - apply IH.
    + pose proof (H x (or_introl eq_refl)). lra.
    + intros y Hy. apply H. right. exact Hy.
Qed.

Lemma wei_to_ether_nonneg (v : Z) : (0 <= v)%Z -> 0 <= wei_to_ether v.
Proof.
  intro H. unfold wei_to_ether. apply Qle_shift_div_l.
  - reflexivity.
  - rewrite Qmult_0_l. change 0 with (inject_Z 0). rewrite <- Zle_Qle.
    exact H.
Qed.

Lemma series_mean_nonneg (s : list (option Q)) (q : Q) :
  (forall x, In (Some x) s -> 0 <= x) -> series_mean s = Fin q -> 0 <= q.
Proof.
  intros H Hq. unfold series_mean in Hq.
  destruct (present s) as [| v vs] eqn:E; [discriminate |].
  injection Hq as <-. apply Qle_shift_div_l.
  - change 0 with (inject_Z 0). rewrite <- Zlt_Qlt. simpl. lia.
  - rewrite Qmult_0_l.
    apply (fold_left_Qplus_nonneg (v :: vs) 0); [lra |].
    intros x Hx. apply H, present_In_inv. rewrite E. exact Hx.
Qed.

(** X13.  When no amount is negative, the average sent is not negative, and
    it is never an infinity. *)
Theorem avg_eth_sent_nonneg (transactions : list RawTransaction)
    (wallet_address : string) (now : Z) (r : FeatureRecord) :
  (forall tx v, In tx transactions -> value tx = Some v -> (0 <= v)%Z) ->
  calculate_features transactions wallet_address now = Ok r ->
  match avg_eth_sent r with
  | Fin q => 0 <= q
  | Inf _ => False
  | NaN => True
  end.
Proof.
  intros Hv H. destruct transactions as [| tx txs].
  - injection H as <-. simpl. lra.
  - apply calculate_features_Ok_inv in H; [| discriminate].
    destruct H as [_ [_ [_ [_ [t [ts [liq [ltv [_ [_ [_ ->]]]]]]]]]]].
    cbn [avg_eth_sent].
    set (df := tx :: txs) in *. clearbody df.
    destruct (filter (is_sent wallet_address) df) as [| s0 sent] eqn:Es;
      [lra |].
    rewrite <- Es.
    destruct (series_mean _) as [q | b |] eqn:Em; [| | exact I].
    + apply (series_mean_nonneg _ q) in Em; [exact Em |].
      intros x Hx. apply in_map_iff in Hx. destruct Hx as [tx0 [Ex Hin]].
      apply filter_In in Hin. destruct Hin as [Hin _].
      destruct (value tx0) as [v |] eqn:Ev; [| discriminate].
      injection Ex as <-. apply wei_to_ether_nonneg. eapply Hv; eauto.
    + unfold series_mean in Em. destruct (present _); discriminate.
Qed.

Lemma avg_eth_sent_nonneg_witness :
  exists r,
    calculate_features [tx_sent; tx_received] "0xab" three_days = Ok r /\
    match avg_eth_sent r with
    | Fin q => 0 <= q
    | Inf _ => False
    | NaN => True
    end.
Proof.
  eexists. split; [reflexivity |].
  apply (avg_eth_sent_nonneg [tx_sent; tx_received] "0xab" three_days).
  - intros tx v [<- | [<- | []]] H; injection H as <-; discriminate.
  - reflexivity.
Defined.

(** ** The age of the wallet *)

Lemma Zmin_list_le (t : Z) (ts : list Z) (x : Z) :
  In x (t :: ts) -> (Zmin_list t ts <= x)%Z.
Proof.
  revert t. induction ts as [| u ts IH]; intros t [<- | H]; simpl.
  - lia.
  - contradiction.
  - lia.
  - pose proof (IH u H). lia.
Qed.

Lemma Zmin_list_In (t : Z) (ts : list Z) : In (Zmin_list t ts) (t :: ts).
Proof.
  revert t. induction ts as [| u ts IH]; intro t; simpl.
  - left. reflexivity.
  - destruct (Z.min_spec t (Zmin_list u ts)) as [[_ ->] | [_ ->]].
    + left. reflexivity.
    + right. apply IH.
Qed.

Lemma timeStamp_present (transactions : list RawTransaction)
    (tx : RawTransaction) (t : Z) :
  In tx transactions -> timeStamp tx = Some t ->
  In t (present (map timeStamp transactions)).
Proof.
  intros Hin Ht. apply present_In. rewrite <- Ht. apply in_map, Hin.
Qed.

(** X14.  The age of the wallet is the age of its earliest transaction: no
    transaction is older than the wallet, and one is exactly as old. *)
Theorem wallet_age_days_earliest (transactions : list RawTransaction)
    (wallet_address : string) (now : Z) (r : FeatureRecord) :
  transactions <> [] ->
  calculate_features transactions wallet_address now = Ok r ->
  (forall tx t, In tx transactions -> timeStamp tx = Some t ->
     ((now - t * 1000000) / microseconds_per_day <= wallet_age_days r)%Z) /\
  (exists tx t, In tx transactions /\ timeStamp tx = Some t /\
     wallet_age_days r = ((now - t * 1000000) / microseconds_per_day)%Z).
Proof.
  intros Hne H. apply calculate_features_Ok_inv in H; [| exact Hne].
  destruct H as [_ [_ [_ [_ [t0 [ts [liq [ltv [Ep [_ [_ ->]]]]]]]]]]].
  cbn [wallet_age_days]. split.
  - intros tx t Hin Ht.
    pose proof (timeStamp_present _ _ _ Hin Ht) as Hp. rewrite Ep in Hp.
    apply Zmin_list_le in Hp.
    apply Z.div_le_mono; [reflexivity | lia].
  - pose proof (Zmin_list_In t0 ts) as Hm. rewrite <- Ep in Hm.
    apply present_In_inv, in_map_iff in Hm. destruct Hm as [tx [Et Hin]].
    exists tx, (Zmin_list t0 ts). repeat split; assumption.
Qed.

Lemma wallet_age_days_earliest_witness :
  exists r,
    calculate_features [tx_received; tx_sent] "0xab" three_days = Ok r /\
    (forall tx t, In tx [tx_received; tx_sent] -> timeStamp tx = Some t ->
       ((three_days - t * 1000000) / microseconds_per_day
        <= wallet_age_days r)%Z) /\
    (exists tx t, In tx [tx_received; tx_sent] /\ timeStamp tx = Some t /\
       wallet_age_days r
       = ((three_days - t * 1000000) / microseconds_per_day)%Z).
Proof.
  eexists. split; [reflexivity |].
  apply (wallet_age_days_earliest [tx_received; tx_sent] "0xab" three_days);
    [discriminate | reflexivity].
Defined.

(** ** The letter case of the address *)

Lemma is_sent_lower (a a' : string) (tx : RawTransaction) :
  lower a = lower a' -> is_sent a tx = is_sent a' tx.
Proof. intro H. unfold is_sent. rewrite H. reflexivity. Qed.

(** X15.  The activity features depend on the address through its
    lower-case form only. *)
Theorem calculate_features_address_case (transactions : list RawTransaction)
    (a a' : string) (now : Z) (r r' : FeatureRecord) :
  lower a = lower a' ->
  calculate_features transactions a now = Ok r ->
  calculate_features transactions a' now = Ok r' ->
  wallet_age_days r = wallet_age_days r' /\
  tx_count r = tx_count r' /\
  avg_eth_sent r = avg_eth_sent r' /\
  unique_recipients r = unique_recipients r'.
Proof.
  intros Hl H H'. destruct transactions as [| tx txs].
  - injection H as <-. injection H' as <-. repeat split.
  - apply calculate_features_Ok_inv in H; [| discriminate].
    apply calculate_features_Ok_inv in H'; [| discriminate].
    destruct H as [_ [_ [_ [_ [t [ts [liq [ltv [Ep [_ [_ ->]]]]]]]]]]].
    destruct H' as [_ [_ [_ [_ [t' [ts' [liq' [ltv' [Ep' [_ [_ ->]]]]]]]]]]].
    rewrite Ep in Ep'. injection Ep' as <- <-.
    cbn [wallet_age_days tx_count avg_eth_sent unique_recipients].
    rewrite (filter_ext (is_sent a) (is_sent a')
               (fun x => is_sent_lower a a' x Hl)).
    repeat split.
Qed.

Lemma calculate_features_address_case_witness :
  exists r r',
    calculate_features [tx_sent; tx_received] "0xAB" three_days = Ok r /\
    calculate_features [tx_sent; tx_received] "0xab" three_days = Ok r' /\
    wallet_age_days r = wallet_age_days r' /\
    tx_count r = tx_count r' /\
    avg_eth_sent r = avg_eth_sent r' /\
    unique_recipients r = unique_recipients r'.
Proof.
  do 2 eexists. split; [reflexivity |]. split; [reflexivity |].
  apply (calculate_features_address_case [tx_sent; tx_received]
           "0xAB" "0xab" three_days);
    reflexivity.
Defined.

(** The flags do depend on the case: ["A"] is not a character of ["abc"]. *)
Example mock_flags_case :
  option_map mock_high_ltv_borrows
    (match calculate_features [tx_sent] "0xAB" three_days with
     | Ok r => Some r
     | Raise _ => None
     end) = Some 0%Z
  /\ option_map mock_high_ltv_borrows
       (match calculate_features [tx_sent] "0xab" three_days with
        | Ok r => Some r
        | Raise _ => None
        end) = Some 1%Z.
Proof. split; reflexivity. Qed.

(** ** The order of the transactions *)

Lemma Permutation_present {A : Type} (l l' : list (option A)) :
  Permutation l l' -> Permutation (present l) (present l').
Proof.
  induction 1 as [| [a |] l l' _ IH | [a |] [b |] l | l l' l'' _ IH _ IH'];
    simpl; auto.
  - apply perm_swap.
  - eapply perm_trans; eauto.
Qed.

Lemma Permutation_filter {A : Type} (p : A -> bool) (l l' : list A) :
  Permutation l l' -> Permutation (filter p l) (filter p l').
Proof.
  induction 1 as [| x l l' _ IH | x y l | l l' l'' _ IH _ IH']; simpl.
  - constructor.
  - destruct (p x); auto.
  - destruct (p x), (p y); auto. apply perm_swap.
  - eapply perm_trans; eauto.
Qed.

Lemma Zmin_list_perm (t t' : Z) (ts ts' : list Z) :
  Permutation (t :: ts) (t' :: ts') -> Zmin_list t ts = Zmin_list t' ts'.
Proof.
  intro HP. apply Z.le_antisymm.
  - apply Zmin_list_le.
    apply (Permutation_in _ (Permutation_sym HP)), Zmin_list_In.
  - apply Zmin_list_le. apply (Permutation_in _ HP), Zmin_list_In.
Qed.

Lemma nunique_perm (s s' : list (option string)) :
  Permutation s s' -> nunique s = nunique s'.
Proof.
  intro HP. unfold nunique. f_equal. apply Permutation_length.
  apply Permutation_present in HP.
  apply NoDup_Permutation; try apply NoDup_nodup.
  intro x. rewrite !nodup_In.
  split; apply Permutation_in; [exact HP | apply Permutation_sym, HP].
Qed.

Lemma has_key_perm {A : Type} (get : RawTransaction -> option A)
    (l l' : list RawTransaction) :
  Permutation l l' -> has_key get l -> has_key get l'.
Proof.
  intros HP [tx [Hin H]]. exists tx. split; [| exact H].
  eapply Permutation_in; eauto.
Qed.

(** X16.  The age, the two counts and the flags do not depend on the order
    in which the transactions come, and neither does whether the extractor
    returns. *)
Theorem calculate_features_perm (transactions transactions' :
    list RawTransaction) (addr : string) (now : Z) (r : FeatureRecord) :
  Permutation transactions transactions' ->
  calculate_features transactions addr now = Ok r ->
  exists r',
    calculate_features transactions' addr now = Ok r' /\
    wallet_age_days r' = wallet_age_days r /\
    tx_count r' = tx_count r /\
    unique_recipients r' = unique_recipients r /\
    mock_liquidations r' = mock_liquidations r /\
    mock_high_ltv_borrows r' = mock_high_ltv_borrows r.
Proof.
  intros HP H. destruct transactions as [| tx txs].
  - apply Permutation_nil in HP. subst. exists r. repeat split. exact H.
  - assert (Hne' : transactions' <> []).
    { intro E. subst. apply Permutation_sym, Permutation_nil in HP.
      discriminate. }
    pose proof H as Hinv.
    apply calculate_features_Ok_inv in Hinv; [| discriminate].
    destruct Hinv
      as [Hv [Ht [Hf [Hto [t [ts [liq [ltv [Ep [Hliq [Hltv ->]]]]]]]]]]].
    destruct (calculate_features_Ok transactions' addr now) as [r' H'];
      eauto using has_key_perm.
    { apply (last_char_in_Ok_inv _ 2 _ _ (le_S _ _ (le_n 1)) Hltv). }
    exists r'. split; [exact H' |].
    apply calculate_features_Ok_inv in H'; [| exact Hne'].
    destruct H'
      as [_ [_ [_ [_ [t' [ts' [liq' [ltv' [Ep' [Hliq' [Hltv' ->]]]]]]]]]]].
    rewrite Hliq in Hliq'. injection Hliq' as <-.
    rewrite Hltv in Hltv'. injection Hltv' as <-.
    cbn [wallet_age_days tx_count unique_recipients mock_liquidations
         mock_high_ltv_borrows].
    repeat split.
    + rewrite (Zmin_list_perm t' t ts' ts); [reflexivity |].
      rewrite <- Ep, <- Ep'.
      apply Permutation_present, Permutation_map, Permutation_sym, HP.
    + rewrite (Permutation_length HP). reflexivity.
    + apply nunique_perm, Permutation_map, Permutation_filter.
      apply Permutation_sym, HP.
Qed.

Lemma calculate_features_perm_witness :
  exists r',
    calculate_features [tx_received; tx_sent] "0xab" three_days = Ok r' /\
    wallet_age_days r' = 2%Z /\
    tx_count r' = 2%Z /\
    unique_recipients r' = 1%Z /\
    mock_liquidations r' = 0%Z /\
    mock_high_ltv_borrows r' = 1%Z.
Proof.
  apply (calculate_features_perm [tx_sent; tx_received]
           [tx_received; tx_sent] "0xab" three_days
           (mkFeatures "0xab" 2 2
              (Fin (fold_left Qplus [wei_to_ether one_ether] 0
                    / inject_Z (Z.of_nat 1)))
              1 0 1)).
  - apply perm_swap.
  - reflexivity.
Defined.

(** * The main block *)

Lemma norm_value_comp (df : DataFrame) (f : feature) (x x' : Q) :
  x == x' -> norm_value df f x == norm_value df f x'.
Proof.
  intro E. unfold norm_value.
  destruct (series_min (column f df)) as [mn | |]; try reflexivity.
  destruct (series_max (column f df)) as [mx | |]; try reflexivity.
  destruct (Qlt_bool 0 (mx - mn)); [| reflexivity].
  rewrite E. reflexivity.
Qed.

(** A batch whose wallets all have the same features cannot be scored. *)
Lemma calculate_risk_scores_same_cells (df : DataFrame) :
  df <> [] ->
  (forall r r' f, In r df -> In r' df -> cell f r == cell f r') ->
  calculate_risk_scores df = Raise IntCastingNaNError.
Proof.
  intros Hne Hsame.
  destruct (raw_scores df) as [| y t] eqn:Er;
    [apply raw_scores_nil in Er; contradiction |].
  destruct (series_min_cons y t) as [a Ha].
  destruct (series_max_cons y t) as [b Hb].
  rewrite <- Er in Ha, Hb.
  apply (calculate_risk_scores_raises df a b Ha Hb).
  destruct (series_min_attained _ _ Ha) as [x [Hx Ex]].
  destruct (series_max_attained _ _ Hb) as [z [Hz Ez]].
  rewrite raw_scores_rows in Hx, Hz.
  apply in_map_iff in Hx. destruct Hx as [r [<- Hr]].
  apply in_map_iff in Hz. destruct Hz as [r' [<- Hr']].
  rewrite <- Ex, <- Ez. unfold raw_score_of.
  apply weighted_sum_comp. intro f. rewrite !cell_normalize_row.
  apply norm_value_comp, Hsame; assumption.
Qed.

Lemma all_features_Ok_inv (wallets : list Wallet)
    (features : list FeatureRecord) :
  all_features wallets = Ok features ->
  Forall2 (fun w r =>
             calculate_features (fetched w) (address w) (extracted_at w)
             = Ok r)
          wallets features.
Proof.
  revert features. induction wallets as [| w ws IH]; intros features H.
  - injection H as <-. constructor.
  - cbn [all_features] in H. bind_inv H. bind_inv H. injection H as <-.
    constructor; [assumption | apply IH; assumption].
Qed.

Lemma calculate_features_wallet_address (transactions : list RawTransaction)
    (addr : string) (now : Z) (r : FeatureRecord) :
  calculate_features transactions addr now = Ok r -> wallet_address r = addr.
Proof.
  intro H. destruct transactions as [| tx txs].
  - injection H as <-. reflexivity.
  - apply calculate_features_Ok_inv in H; [| discriminate].
    destruct H as [_ [_ [_ [_ [t [ts [liq [ltv [_ [_ [_ ->]]]]]]]]]]].
    reflexivity.
Qed.

Lemma main_Ok_inv (wallets : list Wallet) (scores : list (string * Z)) :
  main wallets = Ok scores ->
  exists features,
    all_features wallets = Ok features /\
    features <> [] /\
    calculate_risk_scores (features_frame features) = Ok scores.
Proof.
  unfold main. intro H. bind_inv H. bind_inv H.
  exists a. split; [assumption |].
  destruct a as [| f fs]; [discriminate |].
  injection E0 as <-. split; [discriminate | assumption].
Qed.

(** X17.  The program gives scores only to a list of at least two wallets:
    an empty list has no column to index by, and one wallet alone cannot be
    rescaled. *)
Theorem main_needs_two_wallets (wallets : list Wallet)
    (scores : list (string * Z)) :
  main wallets = Ok scores -> (2 <= List.length wallets)%nat.
Proof.
  intro H. apply main_Ok_inv in H.
  destruct H as [features [Hf [Hne Hs]]].
  apply all_features_Ok_inv in Hf.
  destruct Hf as [| w r ws rs _ Hrest]; [contradiction |].
  destruct Hrest as [| w' r' ws' rs' _ _]; [| simpl; lia].
  unfold features_frame in Hs. cbn [map] in Hs.
  rewrite calculate_risk_scores_single in Hs. discriminate.
Qed.

Lemma main_needs_two_wallets_witness :
  main [wallet_ab; wallet_a0]
  = Ok [("0xab"%string, 1000%Z); ("0xa0"%string, 0%Z)]
  /\ (2 <= List.length [wallet_ab; wallet_a0])%nat.
Proof.
  split; [vm_compute; reflexivity |].
  apply (main_needs_two_wallets [wallet_ab; wallet_a0]
           [("0xab"%string, 1000%Z); ("0xa0"%string, 0%Z)]).
  vm_compute. reflexivity.
Defined.

(** X18.  When no wallet of a list that is not empty has a transaction (no
    request succeeded), every record is the zero record and the program
    stops on the integer cast. *)
Theorem main_no_history (wallets : list Wallet) :
  wallets <> [] ->
  (forall w, In w wallets -> fetched w = []) ->
  main wallets = Raise IntCastingNaNError.
Proof.
  intros Hne Hnone.
  assert (Hall : all_features wallets
                 = Ok (map (fun w => mkFeatures (address w) 0 0 (Fin 0) 0 0 0)
                           wallets)).
  { clear Hne. induction wallets as [| w ws IH]; [reflexivity |].
    cbn [all_features map].
    rewrite (Hnone w (or_introl eq_refl)). cbn [calculate_features bind].
    rewrite IH; [reflexivity |].
    intros v Hv. apply Hnone. right. exact Hv. }
  unfold main. rewrite Hall. cbn [bind].
  destruct wallets as [| w ws]; [contradiction |].
  cbn [map set_index bind].
  apply calculate_risk_scores_same_cells; [discriminate |].
  intros r r' f Hr Hr'.
  change (mkFeatures (address w) 0 0 (Fin 0) 0 0 0
          :: map (fun w => mkFeatures (address w) 0 0 (Fin 0) 0 0 0) ws)
    with (map (fun w => mkFeatures (address w) 0 0 (Fin 0) 0 0 0) (w :: ws))
    in Hr, Hr'.
  unfold features_frame in Hr, Hr'. rewrite map_map in Hr, Hr'.
  apply in_map_iff in Hr. destruct Hr as [v [<- _]].
  apply in_map_iff in Hr'. destruct Hr' as [v' [<- _]].
  destruct f; reflexivity.
Qed.

Lemma main_no_history_witness :
  main [mkWallet "0xab" [] 0; mkWallet "0xa0" [] 0]
  = Raise IntCastingNaNError.
Proof.
  apply (main_no_history [mkWallet "0xab" [] 0; mkWallet "0xa0" [] 0]).
  - discriminate.
  - intros w [<- | [<- | []]]; reflexivity.
Defined.

(** X19.  When the program returns, its rows are the wallets of the list,
    one row each and in the order of the list. *)
Theorem main_wallet_ids (wallets : list Wallet) (scores : list (string * Z)) :
  main wallets = Ok scores -> map fst scores = map address wallets.
Proof.
  intro H. apply main_Ok_inv in H.
  destruct H as [features [Hf [Hne Hs]]].
  apply calculate_risk_scores_Ok_inv in Hs;
    [| destruct features; [contradiction | discriminate]].
  destruct Hs as [a [b [_ [_ [_ ->]]]]].
  rewrite scores_as_rows, map_map. cbn [fst].
  unfold features_frame. rewrite map_map. cbn [to_row index].
  apply all_features_Ok_inv in Hf. clear Hne.
  induction Hf as [| w r ws rs Hr _ IH]; [reflexivity |].
  cbn [map]. rewrite IH.
  rewrite (calculate_features_wallet_address _ _ _ _ Hr). reflexivity.
Qed.

Lemma main_wallet_ids_witness :
  map fst [("0xab"%string, 1000%Z); ("0xa0"%string, 0%Z)]
  = map address [wallet_ab; wallet_a0].
Proof.
  apply (main_wallet_ids [wallet_ab; wallet_a0]).
  vm_compute. reflexivity.
Defined.

(** X20.  The first wallet whose extraction raises stops the program with
    that exception: the batch is lost, whatever the other wallets are. *)
Theorem main_extraction_raises (before after : list Wallet) (w : Wallet)
    (e : exn) :
  (forall v, In v before ->
     exists r,
       calculate_features (fetched v) (address v) (extracted_at v) = Ok r) ->
  calculate_features (fetched w) (address w) (extracted_at w) = Raise e ->
  main (before ++ w :: after) = Raise e.
Proof.
  intros Hbefore Hw.
  assert (H : all_features (before ++ w :: after) = Raise e).
  { induction before as [| v vs IH]; cbn [app all_features].
    - rewrite Hw. reflexivity.
    - destruct (Hbefore v (or_introl eq_refl)) as [r ->]. cbn [bind].
      rewrite IH; [reflexivity |].
      intros u Hu. apply Hbefore. right. exact Hu. }
  unfold main. rewrite H. reflexivity.
Qed.

Lemma main_extraction_raises_witness :
  main ([wallet_ab; wallet_a0] ++ wallet_short :: [wallet_ab])
  = Raise IndexError.
Proof.
  apply (main_extraction_raises [wallet_ab; wallet_a0] [wallet_ab]
           wallet_short IndexError).
  - intros v [<- | [<- | []]]; eexists; reflexivity.
  - reflexivity.
Defined.
